(** * lab-1/experiment.cpp: sorting algorithms and the timing harness

    A shallow embedding of [src/lab-1/experiment.cpp].  The three sorting
    templates ([insertion_sort], [shaker_sort], [merge_sort] with its
    [merge] primitive) are written over an explicit array state, with the
    iterator arithmetic of the source rendered as arithmetic on [Z]
    offsets from [data.begin()]; a vector that has storage is told from a
    default-constructed one, whose iterators are null pointers.  The harness ([split], [read_csv],
    [write_csv], [get_time]) is written over an explicit world made of a
    file system, the standard error stream and a clock. *)

From Stdlib Require Import ZArith QArith Sorted Permutation String Ascii.
From stdpp Require Import base tactics option list sorting strings pretty gmap.

Local Open Scope Z_scope.

(** ** Outcomes and the state monad of the embedding *)

(** The exceptions the program can raise: both come from [std::stoi]. *)
Inductive exn : Type :=
  | invalid_argument
  | out_of_range.

(** What running a piece of the program can lead to.
    - [Ret x]: normal completion with value [x];
    - [Throw e]: a C++ exception propagates (nothing in the file catches);
    - [Undefined]: an iterator or [operator[]] access outside the
      container (undefined behaviour in C++);
    - [Diverges]: the fuel given to a [while] loop or to a recursion ran
      out. *)
Inductive outcome (X : Type) : Type :=
  | Ret (x : X)
  | Throw (e : exn)
  | Undefined
  | Diverges.
Arguments Ret {X} x.
Arguments Throw {X} e.
Arguments Undefined {X}.
Arguments Diverges {X}.

(** Code without state runs in [outcome]. *)
#[global] Instance outcome_ret : MRet outcome := λ X x, Ret x.
#[global] Instance outcome_bind : MBind outcome := λ X Y f o,
  match o with
  | Ret x => f x
  | Throw e => Throw e
  | Undefined => Undefined
  | Diverges => Diverges
  end.

(** Code that reads and writes a state of type [S]. *)
Definition M (S X : Type) : Type := S → outcome (X * S).

#[global] Instance M_ret {S} : MRet (M S) := λ X x s, Ret (x, s).
#[global] Instance M_bind {S} : MBind (M S) := λ X Y f m s,
  match m s with
  | Ret (x, s') => f x s'
  | Throw e => Throw e
  | Undefined => Undefined
  | Diverges => Diverges
  end.

Definition get {S} : M S S := λ s, Ret (s, s).
Definition put {S} (s : S) : M S unit := λ _, Ret (tt, s).

(** Code without state, run where there is one. *)
Definition lift {S X} (o : outcome X) : M S X := λ s,
  match o with
  | Ret x => Ret (x, s)
  | Throw e => Throw e
  | Undefined => Undefined
  | Diverges => Diverges
  end.

Definition throw {S X} (e : exn) : M S X := lift (Throw e).
Definition diverges {S X} : M S X := lift Diverges.

(** [for (i = lo; ...; ++i)] and [for (i = hi; ...; --i)] with the trip
    count [n] computed from the bounds at loop entry (no body below writes
    its loop bounds).  The local variables a body updates are threaded
    through as [x]. *)
Fixpoint for_up {S X} (n : nat) (i : Z) (body : Z → X → M S X) (x : X) : M S X :=
  match n with
  | O => mret x
  | S n' => x' ← body i x; for_up n' (i + 1) body x'
  end.

Fixpoint for_down {S X} (n : nat) (i : Z) (body : Z → X → M S X) (x : X) : M S X :=
  match n with
  | O => mret x
  | S n' => x' ← body i x; for_down n' (i - 1) body x'
  end.

(** [for (i = lo; i < hi; ++i) body] *)
Definition for_lt {S X} (lo hi : Z) (body : Z → X → M S X) (x : X) : M S X :=
  for_up (Z.to_nat (hi - lo)) lo body x.

(** [for (i = hi; i >= lo; --i) body] *)
Definition for_ge {S X} (hi lo : Z) (body : Z → X → M S X) (x : X) : M S X :=
  for_down (Z.to_nat (hi - lo + 1)) hi body x.

(** ** The array state of the sorting templates *)

Section Sorting.
Context {A : Type}.

(** The vector the iterators point into, and the number of times the
    comparator has been invoked.  A [std::vector] that has been given
    storage ([reserve], or any element ever pushed) is [Vec a c], [a] being
    its elements; it may be empty.  A default-constructed vector has no
    storage: its [begin()] and [end()] are the null pointer. *)
Inductive vec : Type :=
  | Vec (a : list A) (c : nat)
  | NoStorage (c : nat).

Definition arr (s : vec) : list A :=
  match s with
  | Vec a _ => a
  | NoStorage _ => []
  end.

Definition ncomp (s : vec) : nat :=
  match s with
  | Vec _ c => c
  | NoStorage c => c
  end.

Variable comp : A → A → bool.

(** The iterators of a vector are pointers; an iterator is given here by
    its distance from [begin()], in elements.  In a vector with storage
    the distances the templates compute lie between -1 and the size,
    and compare as the pointers do.  The one iterator a template computes
    on a vector without storage before it reads an element is [last - 1] in
    [shaker_sort]: a pointer below the null pointer wraps round to the top
    of the address space of 64 bits, and compares above [begin()].  Its
    distance from [begin()] is written here as -1 modulo the size of the
    address space; the code reads an element at once on that path, so
    that only its lying above [begin()] matters. *)
Definition address_space : Z := 2 ^ 64.

(** [i - n] *)
Definition iter_minus (i n : Z) : M vec Z := λ s,
  Ret (match s with
       | Vec _ _ => i - n
       | NoStorage _ => (i - n) `mod` address_space
       end, s).

Definition vec_lookup (a : list A) (i : Z) : option A :=
  if decide (0 ≤ i) then a !! Z.to_nat i else None.

(** [*i] *)
Definition deref (i : Z) : M vec A := λ s,
  match vec_lookup (arr s) i with
  | Some x => Ret (x, s)
  | None => Undefined
  end.

(** [*i = x] *)
Definition assign (i : Z) (x : A) : M vec unit := λ s,
  match vec_lookup (arr s) i with
  | Some _ => Ret (tt, Vec (<[Z.to_nat i := x]> (arr s)) (ncomp s))
  | None => Undefined
  end.

(** [std::iter_swap(i, j)] *)
Definition iter_swap (i j : Z) : M vec unit :=
  x ← deref i; y ← deref j; _ ← assign i y; assign j x.

(** [comp(x, y)], counted. *)
Definition call_comp (x y : A) : M vec bool := λ s,
  Ret (comp x y,
       match s with
       | Vec a c => Vec a (S c)
       | NoStorage c => NoStorage (S c)
       end).

(** *** insertion_sort (lines 153-164) *)

(** Body of the inner loop: [if (comp(t, *j)) std::iter_swap(j, j + 1);] *)
Definition insertion_inner (t : A) (j : Z) (_ : unit) : M vec unit :=
  x ← deref j;
  c ← call_comp t x;
  if c : bool then iter_swap j (j + 1) else mret tt.

(** Body of the outer loop:
    [auto t = *i; for (auto j = i - 1; j >= first; --j) ...] *)
Definition insertion_body (first : Z) (i : Z) (_ : unit) : M vec unit :=
  t ← deref i;
  for_ge (i - 1) first (insertion_inner t) tt.

Definition insertion_sort (first last : Z) : M vec unit :=
  for_lt (first + 1) last (insertion_body first) tt.

(** *** shaker_sort (lines 176-203) *)

(** [if (comp(i[1], i[0])) { std::iter_swap(i + 1, i); no_swaps = false; }],
    where the source writes the two arguments as dereferences of [i + 1]
    and [i] *)
Definition shaker_forward (i : Z) (no_swaps : bool) : M vec bool :=
  x ← deref (i + 1);
  y ← deref i;
  c ← call_comp x y;
  if c : bool then _ ← iter_swap (i + 1) i; mret false else mret no_swaps.

(** [if (comp(i[0], i[-1])) std::iter_swap(i, i - 1);], the arguments
    being the dereferences of [i] and [i - 1] *)
Definition shaker_backward (i : Z) (_ : unit) : M vec unit :=
  x ← deref i;
  y ← deref (i - 1);
  c ← call_comp x y;
  if c : bool then iter_swap i (i - 1) else mret tt.

(** The [while (left_bound <= right_bound)] loop.  Every iteration
    that does not leave the loop moves both bounds towards each other,
    so [n] iterations remain at most, [n] being the number of positions
    from [left_bound] to [right_bound]. *)
Fixpoint shaker_loop (n : nat) (left_bound right_bound : Z)
    (no_swaps : bool) : M vec unit :=
  if bool_decide (left_bound ≤ right_bound) then
    match n with
    | O => diverges
    | S n' =>
        no_swaps ← for_lt left_bound right_bound shaker_forward no_swaps;
        let left_bound := left_bound + 1 in
        if no_swaps : bool then mret tt else
        _ ← for_ge right_bound left_bound shaker_backward tt;
        let right_bound := right_bound - 1 in
        if no_swaps : bool then mret tt else
        shaker_loop n' left_bound right_bound no_swaps
    end
  else mret tt.

Definition shaker_sort (first last : Z) : M vec unit :=
  let left_bound := first in
  right_bound ← iter_minus last 1;
  let no_swaps := true in
  shaker_loop (Z.to_nat (right_bound - left_bound + 1))
    left_bound right_bound no_swaps.

(** *** merge (lines 217-244) *)

(** [result.push_back( *i )] *)
Definition push_back_deref (i : Z) (result : list A) : M vec (list A) :=
  x ← deref i; mret (result ++ [x]).

(** The [while (i < l_last and j < r_last)] loop.  Every iteration
    advances [i] or [j], so [n] iterations remain at most. *)
Fixpoint merge_loop (n : nat) (l_last r_last : Z) (i j : Z)
    (result : list A) : M vec (Z * Z * list A) :=
  if bool_decide (i < l_last) && bool_decide (j < r_last) then
    match n with
    | O => diverges
    | S n' =>
        x ← deref i;
        y ← deref j;
        c ← call_comp x y;
        if c : bool
        then merge_loop n' l_last r_last (i + 1) j (result ++ [x])
        else merge_loop n' l_last r_last i (j + 1) (result ++ [y])
    end
  else mret (i, j, result).

(** [std::copy(result.begin(), result.end(), out)] *)
Fixpoint copy (result : list A) (out : Z) : M vec unit :=
  match result with
  | [] => mret tt
  | x :: result' => _ ← assign out x; copy result' (out + 1)
  end.

Definition merge (l_first l_last r_first r_last : Z) : M vec unit :=
  (* std::vector result(l_first, l_last); result.clear(); *)
  _ ← for_lt l_first l_last push_back_deref [];
  let result := [] in
  let n := (Z.to_nat (l_last - l_first) + Z.to_nat (r_last - r_first))%nat in
  '(i, j, result) ← merge_loop n l_last r_last l_first r_first result;
  result ← for_lt i l_last push_back_deref result;
  result ← for_lt j r_last push_back_deref result;
  copy result l_first.

(** *** merge_sort (lines 252-265) *)

(** [fuel] bounds the depth of the recursion.
    [std::distance(first, last) / 2] is C++ signed division, which
    truncates: [Z.quot]. *)
Fixpoint merge_sort (fuel : nat) (first last : Z) : M vec unit :=
  match fuel with
  | O => diverges
  | S fuel' =>
      if bool_decide (first + 1 = last) then mret tt else
      let mid := (last - first) `quot` 2 in
      _ ← merge_sort fuel' first (first + mid);
      _ ← merge_sort fuel' (first + mid) last;
      merge first (first + mid) (first + mid) last
  end.

End Sorting.

Arguments vec A : clear implicits.



(** ** The record and its ordering (lines 21-70) *)

(** [struct Soldier].  The field [unit] of the source is [unit_] here, as
    [unit] is the name of a type of Rocq.  [salary] is an [int]: the
    values the program builds come out of [std::stoi] and lie in
    [INT_MIN .. INT_MAX]. *)
Record Soldier : Type := mkSoldier {
  full_name : string;
  job : string;
  unit_ : string;
  salary : Z;
}.

Definition INT_MIN : Z := - 2 ^ 31.
Definition INT_MAX : Z := 2 ^ 31 - 1.

(** [std::tie(a.unit, a.full_name, a.salary)] *)
Definition tie (a : Soldier) : string * string * Z :=
  (unit_ a, full_name a, salary a).

(** Comparison of two such tuples, as [std::tuple] does it: the first
    component that differs decides.  [String.compare] is the order of
    [std::string] (bytes as unsigned values, a proper prefix first). *)
Definition tuple_compare (x y : string * string * Z) : comparison :=
  match String.compare x.1.1 y.1.1 with
  | Eq =>
      match String.compare x.1.2 y.1.2 with
      | Eq => Z.compare x.2 y.2
      | c => c
      end
  | c => c
  end.

(** A three-way comparison that is a total order. *)
Class TotalCompare {T : Type} (cmp : T → T → comparison) : Prop := {
  cmp_eq x y : cmp x y = Eq → x = y;
  cmp_refl x : cmp x x = Eq;
  cmp_antisym x y : cmp y x = CompOpp (cmp x y);
  cmp_trans x y z : cmp x y = Lt → cmp y z = Lt → cmp x z = Lt;
}.

(** Comparison of pairs, the first component first. *)
Definition lex_compare {T1 T2} (cmp1 : T1 → T1 → comparison)
    (cmp2 : T2 → T2 → comparison) (x y : T1 * T2) : comparison :=
  match cmp1 x.1 y.1 with
  | Eq => cmp2 x.2 y.2
  | c => c
  end.

(** [operator<], [operator>], [operator<=] and [operator>=] on [Soldier] *)
Definition Soldier_lt (a b : Soldier) : bool :=
  match tuple_compare (tie a) (tie b) with Lt => true | _ => false end.
Definition Soldier_gt (a b : Soldier) : bool :=
  match tuple_compare (tie a) (tie b) with Gt => true | _ => false end.
Definition Soldier_le (a b : Soldier) : bool :=
  match tuple_compare (tie a) (tie b) with Gt => false | _ => true end.
Definition Soldier_ge (a b : Soldier) : bool :=
  match tuple_compare (tie a) (tie b) with Lt => false | _ => true end.

(** [std::less<Soldier>()] calls [operator<]. *)
Definition less_Soldier : Soldier → Soldier → bool := Soldier_lt.

(** ** Reading and writing the data sets (lines 83-132) *)

Definition newline : ascii := ascii_of_nat 10.
Definition endl : string := String newline EmptyString.

(** [std::getline(is, t, del)] on a stream whose unread characters are
    [is_]: at the end of the stream it fails; otherwise it extracts up to
    the first [del], which it consumes and does not store, or up to the end
    of the stream. *)
Fixpoint getline_chars (is_ : string) (del : ascii) : string * string :=
  match is_ with
  | EmptyString => (EmptyString, EmptyString)
  | String c is' =>
      if Ascii.eqb c del then (EmptyString, is')
      else let '(t, rest) := getline_chars is' del in (String c t, rest)
  end.

Definition getline (is_ : string) (del : ascii) : option (string * string) :=
  match is_ with
  | EmptyString => None
  | _ => Some (getline_chars is_ del)
  end.

(** The loop [while (std::getline(is, t, del)) out.push_back(t);]: every
    successful [getline] consumes a character, so [n] iterations remain at
    most. *)
Fixpoint split_loop (n : nat) (is_ : string) (del : ascii)
    (out : list string) : list string :=
  match getline is_ del with
  | None => out
  | Some (t, is') =>
      match n with
      | O => out
      | S n' => split_loop n' is' del (out ++ [t])
      end
  end.

Definition split (str : string) (del : ascii) : list string :=
  split_loop (String.length str) str del [].

(** [std::stoi(str)]: [strtol] in base 10.  Leading white space is
    skipped, one sign is accepted, then the longest run of digits is
    read and whatever follows is ignored; no digit at all raises
    [std::invalid_argument], a value that does not fit an [int] raises
    [std::out_of_range]. *)
Definition isspace (c : ascii) : bool :=
  let n := nat_of_ascii c in
  bool_decide (n = 32 ∨ 9 ≤ n ≤ 13)%nat.

Definition digit (c : ascii) : option Z :=
  let n := Z.of_nat (nat_of_ascii c) in
  if bool_decide (48 ≤ n ≤ 57) then Some (n - 48) else None.

Fixpoint skip_space (s : string) : string :=
  match s with
  | String c s' => if isspace c then skip_space s' else s
  | EmptyString => s
  end.

Fixpoint read_digits (s : string) (acc : option Z) : option Z :=
  match s with
  | String c s' =>
      match digit c with
      | Some d => read_digits s' (Some (10 * default 0 acc + d))
      | None => acc
      end
  | EmptyString => acc
  end.

(** What [strtol] reads at the start of [str], if it reads a number. *)
Definition strtol (str : string) : option Z :=
  let s := skip_space str in
  let '(negative, s) :=
    match s with
    | String "-" s' => (true, s')
    | String "+" s' => (false, s')
    | _ => (false, s)
    end in
  v ← read_digits s None;
  Some (if negative : bool then - v else v).

Definition stoi (str : string) : outcome Z :=
  match strtol str with
  | None => Throw invalid_argument
  | Some v =>
      if bool_decide (INT_MIN ≤ v ≤ INT_MAX) then Ret v else Throw out_of_range
  end.

(** [v[i]] on a [std::vector]: no bounds check, undefined outside. *)
Definition subscript {X} (v : list X) (i : nat) : outcome X :=
  match v !! i with
  | Some x => Ret x
  | None => Undefined
  end.

(** One line of the progress report on [std::cout]: the selector, the
    data set number, its size and the time printed. *)
Record report : Type := Report {
  report_algo : string;
  report_dataset_n : Z;
  report_size : nat;
  report_time : Q;
}.

(** What the harness acts on.
    - [files]: the files that can be opened for reading, with their
      contents;
    - [writable]: the paths an [std::ofstream] can open;
    - [cerr], [cout]: what has been written to the two streams;
    - [clock_reads]: how many times [std::chrono::steady_clock::now()]
      has been called. *)
Record world : Type := World {
  files : gmap string string;
  writable : string → bool;
  cerr : list string;
  cout : list report;
  clock_reads : nat;
}.

Definition set_files (f : gmap string string) (w : world) : world :=
  World f (writable w) (cerr w) (cout w) (clock_reads w).

(** [std::cerr << msg] *)
Definition cerr_print (msg : string) : M world unit := λ w,
  Ret (tt, World (files w) (writable w) (cerr w ++ [msg]) (cout w) (clock_reads w)).

(** [std::cout << ...] *)
Definition cout_print (r : report) : M world unit := λ w,
  Ret (tt, World (files w) (writable w) (cerr w) (cout w ++ [r]) (clock_reads w)).

(** The body of the loop of [read_csv] for one line. *)
Definition read_record (line : string) : outcome Soldier :=
  let fields_v := split line "," in
  f0 ← subscript fields_v 0;
  f1 ← subscript fields_v 1;
  f2 ← subscript fields_v 2;
  f3 ← subscript fields_v 3;
  s ← stoi f3;
  mret (mkSoldier f0 f1 f2 s).

(** [while (std::getline(ifile, line)) { ... data.emplace_back(obj); }]:
    every line read consumes a character, so [n] iterations remain at
    most. *)
Fixpoint read_csv_loop (n : nat) (ifile : string) (data : list Soldier)
    : outcome (list Soldier) :=
  match getline ifile newline with
  | None => Ret data
  | Some (line, ifile') =>
      match n with
      | O => Diverges
      | S n' =>
          obj ← read_record line;
          read_csv_loop n' ifile' (data ++ [obj])
      end
  end.

Definition read_csv (filename : string) : M world (list Soldier) :=
  w ← get;
  match files w !! filename with
  | None =>
      (* the stream is not open: every read from it fails *)
      _ ← cerr_print ("read_csv: Couldn't open file" +:+ endl);
      mret []
  | Some content => lift (read_csv_loop (String.length content) content [])
  end.

(** [ofile << v.full_name << ',' << v.job << ',' << v.unit << ','
          << v.salary << '\n'] *)
Definition csv_line (v : Soldier) : string :=
  full_name v +:+ "," +:+ job v +:+ "," +:+ unit_ v +:+ "," +:+
  pretty (salary v) +:+ endl.

Definition csv_lines (data : list Soldier) : string :=
  foldr (λ v rest, csv_line v +:+ rest) EmptyString data.

Definition write_csv (filename : string) (data : list Soldier) : M world unit :=
  w ← get;
  if writable w filename then
    put (set_files (<[filename := csv_lines data]> (files w)) w)
  else
    (* the stream is not open: every write to it is dropped *)
    cerr_print ("read_csv: Couldn't open file" +:+ endl).

(** ** The timing harness (lines 274-304) *)

Section Harness.
(** [std::chrono::steady_clock]: the reading that the [k]-th call of
    [now()] returns, in ticks of a nanosecond (the period of the clock in
    libstdc++ and libc++). *)
Variable steady_clock : nat → Z.

(** [std::sort] is the library's; it is a parameter of the model. *)
Variable std_sort : list Soldier → list Soldier.

Definition now : M world Z := λ w,
  Ret (steady_clock (clock_reads w),
       World (files w) (writable w) (cerr w) (cout w) (S (clock_reads w))).

(** [std::chrono::duration<double>{finish - start}.count()]: the ticks
    between the two readings, in seconds.  The [double] is taken as the
    exact quotient. *)
Definition elapsed_seconds (start finish : Z) : Q :=
  Qmake (finish - start) 1000000000.

(** A sorting template run on [data.begin()], [data.end()]: what the
    vector holds afterwards.  [data] comes from [read_csv], which reserves
    storage for it before it reads (line 100): the vector has storage, also
    when no record was read. *)
Definition on_data (sort : Z → Z → M (vec Soldier) unit)
    (data : list Soldier) : outcome (list Soldier) :=
  '(_, v) ← sort 0 (Z.of_nat (length data)) (Vec data 0);
  mret (arr v).

(** The chain of [if (algo == ...)]; [fuel] is the depth allowed to the
    recursion of [merge_sort]. *)
Definition sort_data (fuel : nat) (algo : string) (data : list Soldier)
    : outcome (list Soldier) :=
  if decide (algo = "insertion_sort") then
    on_data (insertion_sort less_Soldier) data
  else if decide (algo = "shaker_sort") then
    on_data (shaker_sort less_Soldier) data
  else if decide (algo = "merge_sort") then
    on_data (merge_sort less_Soldier fuel) data
  else if decide (algo = "std::sort") then
    mret (std_sort data)
  else mret data.

(** ["./data/in/dataset_" + std::to_string(i) + ".csv"] *)
Definition dataset_in (i : Z) : string :=
  "./data/in/dataset_" +:+ pretty i +:+ ".csv".

(** ["data/out/insertion/dataset_" + std::to_string(i) + ".csv"] *)
Definition dataset_out (i : Z) : string :=
  "data/out/insertion/dataset_" +:+ pretty i +:+ ".csv".

(** The body of the loop of [get_time]. *)
Definition get_time_body (fuel : nat) (algo : string) (i : Z)
    (xy : list Q * list Q) : M world (list Q * list Q) :=
  let '(x, y) := xy in
  data ← read_csv (dataset_in i);
  start ← now;
  data ← lift (sort_data fuel algo data);
  finish ← now;
  let x := x ++ [inject_Z (Z.of_nat (length data))] in
  let y := y ++ [elapsed_seconds start finish] in
  _ ← write_csv (dataset_out i) data;
  (* y.at(i - 1) *)
  t ← match y !! Z.to_nat (i - 1) with
      | Some t => mret t
      | None => throw out_of_range
      end;
  _ ← cout_print (Report algo i (length data) t);
  mret (x, y).

(** [for (int i{1}; i <= j; ++i)] *)
Definition get_time (fuel : nat) (j : Z) (algo : string)
    : M world (list Q * list Q) :=
  for_up (Z.to_nat j) 1 (get_time_body fuel algo) ([], []).

(** *** What one iteration and [n] iterations leave behind *)

(** The time the iteration that starts with [c] readings of the clock
    measures. *)
Definition time_at (c : nat) : Q :=
  elapsed_seconds (steady_clock c) (steady_clock (S c)).

(** The world after [write_csv] and the report of the iteration for data
    set [i], whose sorted records are [sd]. *)
Definition world_after (algo : string) (i : Z) (sd : list Soldier)
    (w : world) : world :=
  World
    (if writable w (dataset_out i)
     then <[dataset_out i := csv_lines sd]> (files w) else files w)
    (writable w)
    (if writable w (dataset_out i) then cerr w
     else cerr w ++ ["read_csv: Couldn't open file" +:+ endl])
    (cout w ++ [Report algo i (length sd) (time_at (clock_reads w))])
    (S (S (clock_reads w))).

(** The world after the iterations for the data sets [i], ...,
    [i + n - 1]. *)
Fixpoint worlds_after (algo : string) (sd : Z → list Soldier) (n : nat)
    (i : Z) (w : world) : world :=
  match n with
  | O => w
  | S n' => worlds_after algo sd n' (i + 1) (world_after algo i (sd i) w)
  end.

(** Data set [i] can be opened and [read_csv] reads the records [data]
    from it. *)
Definition loaded (w : world) (i : Z) (data : list Soldier) : Prop :=
  ∃ content, files w !! dataset_in i = Some content ∧
    read_csv_loop (String.length content) content [] = Ret data.

End Harness.

(** *** Worlds and records used as examples *)

(** No data set at all; every path can be opened for writing. *)
Definition world_no_dataset : world := World ∅ (λ _, true) [] [] 0.

(** Data set 1 is an empty file. *)
Definition world_empty_dataset : world :=
  World {[ dataset_in 1 := EmptyString ]} (λ _, true) [] [] 0.

(** Data set 1 holds two records, the second one first in the ordering. *)
Definition world_two_records : world :=
  World {[ dataset_in 1 := "B,x,U2,100" +:+ endl +:+ "A,y,U1,200" +:+ endl ]}
    (λ _, true) [] [] 0.


(** A clock that advances by a microsecond between two readings. *)
Definition example_clock (k : nat) : Z := 1000 * Z.of_nat k.

(** Two records with the same key and different jobs. *)
Definition clerk : Soldier := mkSoldier "A" "clerk" "U1" 100.
Definition driver : Soldier := mkSoldier "A" "driver" "U1" 100.


(** ** What each loop computes, on lists

    The functions of this section are not taken from the source: each one
    states, on the list of the elements of a range, what one loop of the
    source does to that range.  The lemmas [*_run] below prove that the
    loops compute them. *)

Section Passes.
Context {A : Type} (comp : A → A → bool).

(** The inner loop of [insertion_sort], run over the elements [rp] that
    precede position [j + 1] (nearest first), [y] being the element at
    [j + 1]: the elements of positions [0 .. j + 1] afterwards. *)
Fixpoint insertion_pass (t : A) (y : A) (rp : list A) : list A :=
  match rp with
  | [] => [y]
  | x :: rp' =>
      if comp t x then insertion_pass t y rp' ++ [x]
      else insertion_pass t x rp' ++ [y]
  end.

(** The outer loop of [insertion_sort], with [pre] before position [i]
    and [suf] from position [i] on. *)
Fixpoint insertion_passes (pre suf : list A) : list A :=
  match suf with
  | [] => pre
  | t :: suf' => insertion_passes (insertion_pass t t (reverse pre)) suf'
  end.

(** [insertion_sort] on the whole of a vector. *)
Definition insertion_sort_list (l : list A) : list A :=
  match l with
  | [] => []
  | x :: l' => insertion_passes [x] l'
  end.

(** The forward loop of [shaker_sort] over [x :: l], with the flag. *)
Fixpoint forward_pass (x : A) (l : list A) (no_swaps : bool) : list A * bool :=
  match l with
  | [] => ([x], no_swaps)
  | y :: l' =>
      if comp y x
      then let '(r, b) := forward_pass x l' false in (y :: r, b)
      else let '(r, b) := forward_pass y l' no_swaps in (x :: r, b)
  end.

(** The backward loop of [shaker_sort], run from the element [y] over
    the elements [rp] before it (nearest first). *)
Fixpoint backward_pass (y : A) (rp : list A) : list A :=
  match rp with
  | [] => [y]
  | x :: rp' =>
      if comp y x then backward_pass y rp' ++ [x]
      else backward_pass x rp' ++ [y]
  end.

(** The [while] loop of [shaker_sort] on the elements [mid] between the
    two bounds (both included): one iteration runs the forward pass,
    then the backward pass from the last element, and the next
    iteration works on what lies strictly between the first and the last
    element. *)
Fixpoint shaker_passes (n : nat) (mid : list A) (no_swaps : bool) : list A :=
  match mid, n with
  | [], _ => []
  | _ :: _, O => mid
  | x :: m, S n' =>
      let '(r, no_swaps) := forward_pass x m no_swaps in
      if no_swaps then r else
      match reverse r with
      | [] => r
      | y :: rp =>
          match backward_pass y rp with
          | [] => []
          | mn :: rest =>
              match reverse rest with
              | [] => [mn]
              | mx :: rmid =>
                  mn :: shaker_passes n' (reverse rmid) false ++ [mx]
              end
          end
      end
  end.

(** [shaker_sort] on the whole of a vector. *)
Definition shaker_sort_list (l : list A) : list A :=
  shaker_passes (length l) l true.

(** What [merge] leaves in the combined range, from the elements [l] and
    [r] of its two ranges. *)
Fixpoint merge_lists (l : list A) : list A → list A :=
  fix merge_right (r : list A) : list A :=
    match l, r with
    | [], _ => r
    | _, [] => l
    | x :: l', y :: r' =>
        if comp x y then x :: merge_lists l' r else y :: merge_right r'
    end.

(** What [merge_sort] leaves in its range, from the elements [l] of the
    range; [None] when the recursion is deeper than [fuel]. *)
Fixpoint merge_sort_list (fuel : nat) (l : list A) : option (list A) :=
  match fuel with
  | O => None
  | S fuel' =>
      if decide (length l = 1%nat) then Some l else
      let mid := (length l / 2)%nat in
      l1 ← merge_sort_list fuel' (take mid l);
      l2 ← merge_sort_list fuel' (drop mid l);
      Some (merge_lists l1 l2)
  end.

(** [x] does not come after [y]: the comparator does not put [y] first. *)
Definition le (x y : A) : Prop := comp y x = false.

(** [x] and [y] compare equal: neither comes first. *)
Definition equiv_keys (x y : A) : Prop := comp x y = false ∧ comp y x = false.

#[global] Instance equiv_keys_dec x y : Decision (equiv_keys x y).
Proof. unfold equiv_keys. apply _. Defined.

(** [l'] keeps the elements of [l] that compare equal in the order they
    have in [l]. *)
Definition stable (l l' : list A) : Prop :=
  ∀ z, filter (equiv_keys z) l' = filter (equiv_keys z) l.

End Passes.

(** The outcome [o] of a sort run on the records [l]: it returns, and the
    vector then holds the records of [l], each as often as [l] does, none
    before a record that the ordering puts first. *)
Definition sorts (l : list Soldier) (o : outcome (unit * vec Soldier)) : Prop :=
  ∃ out c, o = Ret (tt, Vec out c) ∧
    Sorted (le less_Soldier) out ∧ l ≡ₚ out.

(** The outcome [o] of a sort run on the records [l]: it returns, and
    records with equal keys are in the order they had in [l]. *)
Definition sorts_stably (l : list Soldier)
    (o : outcome (unit * vec Soldier)) : Prop :=
  ∃ out c, o = Ret (tt, Vec out c) ∧ stable less_Soldier l out.

(** *** Notions used to state what the harness does with text *)

(** The fields [fields] written one after the other with [del] between
    two of them. *)
Fixpoint join (del : ascii) (fields : list string) : string :=
  match fields with
  | [] => EmptyString
  | f :: fields' =>
      match fields' with
      | [] => f
      | _ :: _ => f +:+ String del (join del fields')
      end
  end.

(** [fields] without its last field when that field is empty. *)
Fixpoint drop_empty_last (fields : list string) : list string :=
  match fields with
  | [] => []
  | f :: fields' =>
      match fields' with
      | [] => if decide (f = EmptyString) then [] else [f]
      | _ :: _ => f :: drop_empty_last fields'
      end
  end.






(** A text without a comma and without a line break. *)
Definition plain (s : string) : Prop :=
  (("," : ascii) ∉ list_ascii_of_string s) ∧
  (newline ∉ list_ascii_of_string s).

(** A record whose three texts are plain and whose salary is an [int]. *)
Definition csv_safe (v : Soldier) : Prop :=
  plain (full_name v) ∧ plain (job v) ∧ plain (unit_ v) ∧
  INT_MIN ≤ salary v ≤ INT_MAX.

(** Data set 1 holds two records; the only line of data set 2 has a fourth
    field without a number. *)
Definition world_second_bad : world :=
  World (<[ dataset_in 2 := "a,b,c,abc" +:+ endl ]>
           {[ dataset_in 1 :=
                "B,x,U2,100" +:+ endl +:+ "A,y,U1,200" +:+ endl ]})
    (λ _, true) [] [] 0.

(** * Proofs *)

(** ** Running the monad *)

Lemma bind_Ret {S X Y} (m : M S X) (f : X → M S Y) s x s' :
  m s = Ret (x, s') → (m ≫= f) s = f x s'.
Proof. unfold mbind, M_bind. by intros ->. Qed.

Lemma for_up_S {S X} n i (body : Z → X → M S X) x :
  for_up (Datatypes.S n) i body x = (body i x ≫= for_up n (i + 1) body).
Proof. done. Qed.

Lemma for_down_S {S X} n i (body : Z → X → M S X) x :
  for_down (Datatypes.S n) i body x = (body i x ≫= for_down n (i - 1) body).
Proof. done. Qed.

Lemma bind_assoc {S X Y Z} (m : M S X) (f : X → M S Y) (g : Y → M S Z) s :
  ((m ≫= f) ≫= g) s = (m ≫= (λ x, f x ≫= g)) s.
Proof. unfold mbind, M_bind. by destruct (m s) as [[]| | |]. Qed.

Lemma bind_Diverges {S X Y} (m : M S X) (f : X → M S Y) s :
  m s = Diverges → (m ≫= f) s = Diverges.
Proof. unfold mbind, M_bind. by intros ->. Qed.

(** Equations between lists that differ in the nesting of [++] only. *)
Ltac solve_app_eq :=
  repeat (progress (rewrite <- ?(assoc_L (++)); cbn [app];
                    rewrite ?(right_id_L [] (++))));
  reflexivity.

(** Give the array of the state the shape [l]. *)
Ltac arr_shape l :=
  match goal with
  | |- context [Vec ?a _] => replace a with l by solve_app_eq
  end.

Tactic Notation "mstep" open_constr(lem) :=
  erewrite bind_Ret; [| apply lem; try done; try lia].

Section ArrayLemmas.
Context {A : Type} (comp : A → A → bool).
Implicit Types (l : list A) (c : nat) (i j : Z).

Lemma vec_lookup_middle l1 x l2 i :
  i = Z.of_nat (length l1) → vec_lookup (l1 ++ x :: l2) i = Some x.
Proof.
  intros ->. unfold vec_lookup. rewrite decide_True by lia.
  rewrite Nat2Z.id. by apply list_lookup_middle.
Qed.

Lemma deref_middle l1 x l2 c i :
  i = Z.of_nat (length l1) →
  deref i (Vec (l1 ++ x :: l2) c) = Ret (x, Vec (l1 ++ x :: l2) c).
Proof. intros Hi. unfold deref; simpl. by rewrite vec_lookup_middle. Qed.

Lemma assign_middle l1 x y l2 c i :
  i = Z.of_nat (length l1) →
  assign i y (Vec (l1 ++ x :: l2) c) = Ret (tt, Vec (l1 ++ y :: l2) c).
Proof.
  intros Hi. unfold assign; simpl. rewrite vec_lookup_middle by done.
  subst i. rewrite Nat2Z.id. do 3 f_equal.
  rewrite insert_app_r_alt by lia. by rewrite Nat.sub_diag.
Qed.

Lemma iter_swap_adjacent l1 x y l2 c i j :
  i = Z.of_nat (length l1) → j = i + 1 →
  iter_swap i j (Vec (l1 ++ x :: y :: l2) c)
  = Ret (tt, Vec (l1 ++ y :: x :: l2) c).
Proof.
  intros Hi Hj. unfold iter_swap.
  mstep deref_middle.
  change (l1 ++ x :: y :: l2) with (l1 ++ [x] ++ y :: l2).
  rewrite (assoc_L (++)).
  mstep deref_middle; [|rewrite length_app; simpl; lia].
  rewrite <- (assoc_L (++)). simpl.
  mstep assign_middle.
  change (l1 ++ y :: y :: l2) with (l1 ++ [y] ++ y :: l2).
  rewrite (assoc_L (++)).
  rewrite (assign_middle _ y x) by (rewrite length_app; simpl; lia).
  by rewrite <- (assoc_L (++)).
Qed.

Lemma iter_swap_adjacent' l1 x y l2 c i j :
  i = Z.of_nat (length l1) → j = i + 1 →
  iter_swap j i (Vec (l1 ++ x :: y :: l2) c)
  = Ret (tt, Vec (l1 ++ y :: x :: l2) c).
Proof.
  intros Hi Hj. unfold iter_swap.
  change (l1 ++ x :: y :: l2) with (l1 ++ [x] ++ y :: l2).
  rewrite (assoc_L (++)).
  mstep deref_middle; [|rewrite length_app; simpl; lia].
  rewrite <- (assoc_L (++)). simpl.
  mstep deref_middle.
  change (l1 ++ x :: y :: l2) with (l1 ++ [x] ++ y :: l2).
  rewrite (assoc_L (++)).
  mstep assign_middle; [|rewrite length_app; simpl; lia].
  rewrite <- (assoc_L (++)). simpl.
  by rewrite (assign_middle _ x y).
Qed.

Lemma call_comp_run x y l c :
  call_comp comp x y (Vec l c) = Ret (comp x y, Vec l (S c)).
Proof. done. Qed.

End ArrayLemmas.

(** ** The loops compute the passes *)

Section Runs.
Context {A : Type} (comp : A → A → bool).
Implicit Types (l pre suf rp : list A) (c : nat) (i j : Z).

Lemma length_insertion_pass t y rp :
  length (insertion_pass comp t y rp) = S (length rp).
Proof.
  revert y. induction rp as [|x rp IH]; intros y; simpl; [done|].
  destruct (comp t x); rewrite length_app, IH; simpl; lia.
Qed.

Lemma insertion_inner_step t l1 x y l2 c j :
  j = Z.of_nat (length l1) →
  insertion_inner comp t j tt (Vec (l1 ++ x :: y :: l2) c)
  = Ret (tt, Vec (if comp t x then l1 ++ y :: x :: l2
                  else l1 ++ x :: y :: l2) (S c)).
Proof.
  intros Hj. unfold insertion_inner.
  mstep deref_middle. mstep call_comp_run.
  destruct (comp t x); [|done].
  by rewrite (iter_swap_adjacent l1 x y).
Qed.

Lemma insertion_inner_run t rp : ∀ y suf c i,
  i = Z.of_nat (length rp) - 1 →
  for_down (length rp) i (insertion_inner comp t) tt
    (Vec (reverse rp ++ y :: suf) c)
  = Ret (tt, Vec (insertion_pass comp t y rp ++ suf) (c + length rp)).
Proof.
  induction rp as [|x rp IH]; intros y suf c i Hi.
  - simpl. by rewrite Nat.add_0_r.
  - cbn [length] in *. rewrite for_down_S.
    rewrite reverse_cons, <- (assoc_L (++)). cbn [app].
    mstep insertion_inner_step; [|rewrite length_reverse; lia].
    cbn [insertion_pass]. destruct (comp t x).
    + rewrite IH by lia.
      rewrite <- (assoc_L (++)). cbn [app]. do 3 f_equal. lia.
    + rewrite IH by lia.
      rewrite <- (assoc_L (++)). cbn [app]. do 3 f_equal. lia.
Qed.

Lemma insertion_body_run pre t suf c i :
  i = Z.of_nat (length pre) →
  insertion_body comp 0 i tt (Vec (pre ++ t :: suf) c)
  = Ret (tt, Vec (insertion_pass comp t t (reverse pre) ++ suf)
                 (c + length pre)).
Proof.
  intros Hi. unfold insertion_body. mstep deref_middle.
  unfold for_ge.
  replace (Z.to_nat (i - 1 - 0 + 1)) with (length (reverse pre))
    by (rewrite length_reverse; lia).
  rewrite <- (reverse_involutive pre) at 2.
  rewrite insertion_inner_run by (rewrite length_reverse; lia).
  by rewrite length_reverse.
Qed.

Lemma insertion_outer_run suf : ∀ pre c i,
  i = Z.of_nat (length pre) →
  ∃ c', for_up (length suf) i (insertion_body comp 0) tt (Vec (pre ++ suf) c)
        = Ret (tt, Vec (insertion_passes comp pre suf) c').
Proof.
  induction suf as [|t suf IH]; intros pre c i Hi.
  - exists c. simpl. by rewrite (right_id_L [] (++)).
  - cbn [length]. rewrite for_up_S.
    mstep insertion_body_run.
    cbn [insertion_passes]. apply IH.
    rewrite length_insertion_pass, length_reverse. lia.
Qed.

Lemma insertion_sort_run l c :
  ∃ c', insertion_sort comp 0 (Z.of_nat (length l)) (Vec l c)
        = Ret (tt, Vec (insertion_sort_list comp l) c').
Proof.
  unfold insertion_sort, for_lt. destruct l as [|x l].
  - exists c. done.
  - replace (Z.to_nat _) with (length l) by (cbn [length]; lia).
    apply (insertion_outer_run l [x]). done.
Qed.

(** *** shaker_sort *)

Lemma deref_middle_next l1 x y l2 c i :
  i = Z.of_nat (length l1) + 1 →
  deref i (Vec (l1 ++ x :: y :: l2) c) = Ret (y, Vec (l1 ++ x :: y :: l2) c).
Proof.
  intros Hi. change (l1 ++ x :: y :: l2) with (l1 ++ [x] ++ y :: l2).
  rewrite (assoc_L (++)). apply deref_middle.
  rewrite length_app. simpl. lia.
Qed.

Lemma shaker_forward_step l1 x y l2 c i no_swaps :
  i = Z.of_nat (length l1) →
  shaker_forward comp i no_swaps (Vec (l1 ++ x :: y :: l2) c)
  = Ret (if comp y x then false else no_swaps,
         Vec (if comp y x then l1 ++ y :: x :: l2
              else l1 ++ x :: y :: l2) (S c)).
Proof.
  intros Hi. unfold shaker_forward.
  mstep deref_middle_next. mstep deref_middle. mstep call_comp_run.
  destruct (comp y x); [|done].
  by mstep iter_swap_adjacent'.
Qed.

Lemma shaker_backward_step l1 x y l2 c i :
  i = Z.of_nat (length l1) + 1 →
  shaker_backward comp i tt (Vec (l1 ++ x :: y :: l2) c)
  = Ret (tt, Vec (if comp y x then l1 ++ y :: x :: l2
                  else l1 ++ x :: y :: l2) (S c)).
Proof.
  intros Hi. unfold shaker_backward.
  mstep deref_middle_next. mstep deref_middle. mstep call_comp_run.
  destruct (comp y x); [|done].
  by rewrite (iter_swap_adjacent' l1 x y l2 _ (i - 1) i) by lia.
Qed.

Lemma length_forward_pass x l no_swaps :
  length (forward_pass comp x l no_swaps).1 = S (length l).
Proof.
  revert x no_swaps. induction l as [|y l IH]; intros x b; simpl; [done|].
  destruct (comp y x).
  - specialize (IH x false). destruct (forward_pass comp x l false).
    simpl in *. lia.
  - specialize (IH y b). destruct (forward_pass comp y l b).
    simpl in *. lia.
Qed.

Lemma length_backward_pass y rp :
  length (backward_pass comp y rp) = S (length rp).
Proof.
  revert y. induction rp as [|x rp IH]; intros y; simpl; [done|].
  destruct (comp y x); rewrite length_app, IH; simpl; lia.
Qed.

Lemma forward_pass_run l : ∀ x lo hi c i no_swaps,
  i = Z.of_nat (length lo) →
  for_up (length l) i (shaker_forward comp) no_swaps
    (Vec (lo ++ x :: l ++ hi) c)
  = Ret ((forward_pass comp x l no_swaps).2,
         Vec (lo ++ (forward_pass comp x l no_swaps).1 ++ hi)
             (c + length l)).
Proof.
  induction l as [|y l IH]; intros x lo hi c i b Hi.
  - simpl. by rewrite Nat.add_0_r.
  - cbn [length app]. rewrite for_up_S.
    mstep shaker_forward_step.
    cbn [forward_pass]. destruct (comp y x).
    + change (lo ++ y :: x :: l ++ hi) with (lo ++ [y] ++ x :: l ++ hi).
      rewrite (assoc_L (++)), IH by (rewrite length_app; simpl; lia).
      destruct (forward_pass comp x l false) as [r b']. simpl.
      rewrite <- (assoc_L (++)). simpl. do 3 f_equal. lia.
    + change (lo ++ x :: y :: l ++ hi) with (lo ++ [x] ++ y :: l ++ hi).
      rewrite (assoc_L (++)), IH by (rewrite length_app; simpl; lia).
      destruct (forward_pass comp y l b) as [r b']. simpl.
      rewrite <- (assoc_L (++)). simpl. do 3 f_equal. lia.
Qed.

Lemma backward_pass_run rp : ∀ y lo hi c i,
  i = Z.of_nat (length lo + length rp) →
  for_down (length rp) i (shaker_backward comp) tt
    (Vec (lo ++ reverse rp ++ y :: hi) c)
  = Ret (tt, Vec (lo ++ backward_pass comp y rp ++ hi) (c + length rp)).
Proof.
  induction rp as [|x rp IH]; intros y lo hi c i Hi.
  - simpl. by rewrite Nat.add_0_r.
  - cbn [length] in *. rewrite for_down_S.
    rewrite reverse_cons, <- (assoc_L (++)). cbn [app].
    rewrite (assoc_L (++) lo).
    mstep shaker_backward_step;
      [|rewrite length_app, length_reverse; lia].
    cbn [backward_pass]. destruct (comp y x).
    + rewrite <- (assoc_L (++) lo), IH by lia.
      rewrite <- (assoc_L (++)). cbn [app]. do 3 f_equal. lia.
    + rewrite <- (assoc_L (++) lo), IH by lia.
      rewrite <- (assoc_L (++)). cbn [app]. do 3 f_equal. lia.
Qed.

Lemma reverse_eq_cons l y rp : reverse l = y :: rp → l = reverse rp ++ [y].
Proof.
  intros H. rewrite <- (reverse_involutive l), H. apply reverse_cons.
Qed.

Lemma shaker_loop_run n : ∀ mid lo hi c no_swaps left_bound right_bound,
  left_bound = Z.of_nat (length lo) →
  right_bound = Z.of_nat (length lo + length mid) - 1 →
  (length mid ≤ n)%nat →
  ∃ c', shaker_loop comp n left_bound right_bound no_swaps
          (Vec (lo ++ mid ++ hi) c)
        = Ret (tt, Vec (lo ++ shaker_passes comp n mid no_swaps ++ hi) c').
Proof.
  induction n as [|n IH]; intros mid lo hi c b L R HL HR Hn.
  - destruct mid; [|simpl in Hn; lia]. exists c. simpl.
    rewrite bool_decide_false by (simpl in HR; lia). done.
  - destruct mid as [|x m].
    { exists c. simpl. rewrite bool_decide_false by (simpl in HR; lia). done. }
    cbn [length] in *. cbn [shaker_loop shaker_passes].
    rewrite bool_decide_true by lia.
    unfold for_lt. replace (Z.to_nat (R - L)) with (length m) by lia.
    cbn [app].
    mstep forward_pass_run.
    pose proof (length_forward_pass x m b) as Hlen.
    destruct (forward_pass comp x m b) as [r b']. cbn [fst snd] in *.
    destruct b'; [by eexists|].
    unfold for_ge.
    replace (Z.to_nat (R - (L + 1) + 1)) with (length m) by lia.
    destruct (reverse r) as [|y rp] eqn:Hr.
    { apply (f_equal length) in Hr. rewrite length_reverse in Hr.
      simpl in Hr. lia. }
    apply reverse_eq_cons in Hr. subst r.
    rewrite length_app in Hlen. rewrite length_reverse in Hlen.
    simpl in Hlen.
    rewrite <- (assoc_L (++) (reverse rp)). cbn [app].
    replace (length m) with (length rp) by lia.
    mstep backward_pass_run.
    pose proof (length_backward_pass y rp) as Hlen'.
    destruct (backward_pass comp y rp) as [|mn rest]; [simpl in Hlen'; lia|].
    cbn [length] in Hlen'.
    destruct (reverse rest) as [|mx rmid] eqn:Hrest.
    + apply (f_equal length) in Hrest. rewrite length_reverse in Hrest.
      simpl in Hrest.
      destruct rest; [|simpl in Hrest; lia].
      destruct n as [|n']; simpl;
        rewrite bool_decide_false by lia; by eexists.
    + apply reverse_eq_cons in Hrest. subst rest.
      rewrite length_app, length_reverse in Hlen'. simpl in Hlen'.
      destruct (IH (reverse rmid) (lo ++ [mn]) (mx :: hi)
                  (c + length m + length rp)%nat false (L + 1) (R - 1))
        as [c' Hc'].
      { rewrite length_app. simpl. lia. }
      { rewrite length_app, length_reverse. simpl. lia. }
      { rewrite length_reverse. lia. }
      exists c'. etrans; [etrans; [|exact Hc']|].
      * f_equal. f_equal; [|lia].
        rewrite <- !(assoc_L (++)). simpl. by rewrite <- !(assoc_L (++)).
      * do 3 f_equal.
        rewrite <- !(assoc_L (++)). simpl. by rewrite <- !(assoc_L (++)).
Qed.

Lemma shaker_sort_run l c :
  ∃ c', shaker_sort comp 0 (Z.of_nat (length l)) (Vec l c)
        = Ret (tt, Vec (shaker_sort_list comp l) c').
Proof.
  unfold shaker_sort, shaker_sort_list.
  destruct (shaker_loop_run (length l) l [] [] c true 0
              (Z.of_nat (length l) - 1)) as [c' Hc']; [done|simpl; lia|done|].
  exists c'. simpl in Hc'. rewrite !(right_id_L [] (++)) in Hc'.
  erewrite bind_Ret by reflexivity. cbv zeta.
  rewrite <- Hc'. f_equal; lia.
Qed.

(** *** merge and merge_sort *)

Lemma push_back_deref_step l1 x l2 c i result :
  i = Z.of_nat (length l1) →
  push_back_deref i result (Vec (l1 ++ x :: l2) c)
  = Ret (result ++ [x], Vec (l1 ++ x :: l2) c).
Proof. intros Hi. unfold push_back_deref. by mstep deref_middle. Qed.

Lemma read_range_run l : ∀ pre post result c i,
  i = Z.of_nat (length pre) →
  for_up (length l) i push_back_deref result (Vec (pre ++ l ++ post) c)
  = Ret (result ++ l, Vec (pre ++ l ++ post) c).
Proof.
  induction l as [|x l IH]; intros pre post result c i Hi.
  - simpl. by rewrite (right_id_L [] (++)).
  - cbn [length app]. rewrite for_up_S.
    mstep push_back_deref_step.
    change (pre ++ x :: l ++ post) with (pre ++ [x] ++ l ++ post).
    rewrite (assoc_L (++) pre), IH by (rewrite length_app; simpl; lia).
    by rewrite <- !(assoc_L (++)).
Qed.

Lemma copy_run result : ∀ pre old post c out,
  out = Z.of_nat (length pre) → length old = length result →
  copy result out (Vec (pre ++ old ++ post) c)
  = Ret (tt, Vec (pre ++ result ++ post) c).
Proof.
  induction result as [|x result IH]; intros pre old post c out Hout Hlen.
  - destruct old; [done|simpl in Hlen; lia].
  - destruct old as [|o old]; simpl in Hlen; [lia|].
    cbn [copy app]. mstep assign_middle.
    change (pre ++ x :: old ++ post) with (pre ++ [x] ++ old ++ post).
    rewrite (assoc_L (++) pre), (IH (pre ++ [x]) old)
      by (rewrite ?length_app; simpl; lia).
    by rewrite <- !(assoc_L (++)).
Qed.

Lemma merge_lists_nil_r l : merge_lists comp l [] = l.
Proof. by destruct l. Qed.

Lemma merge_lists_cons x l y r :
  merge_lists comp (x :: l) (y :: r)
  = if comp x y then x :: merge_lists comp l (y :: r)
    else y :: merge_lists comp (x :: l) r.
Proof. done. Qed.

Lemma length_merge_lists l : ∀ r,
  length (merge_lists comp l r) = (length l + length r)%nat.
Proof.
  induction l as [|x l IHl]; intros r; [by destruct r|].
  induction r as [|y r IHr]; [simpl; lia|].
  rewrite merge_lists_cons. destruct (comp x y); cbn [length].
  - rewrite IHl. simpl. lia.
  - rewrite IHr. simpl. lia.
Qed.

Lemma merge_loop_run n : ∀ l2 r2 pre l1 r1 post result c l_last r_last i j out,
  i = Z.of_nat (length pre + length l1) →
  l_last = i + Z.of_nat (length l2) →
  j = l_last + Z.of_nat (length r1) →
  r_last = j + Z.of_nat (length r2) →
  (length l2 + length r2 ≤ n)%nat →
  ∃ c',
    ('(i, j, result) ← merge_loop comp n l_last r_last i j result;
     result ← for_lt i l_last push_back_deref result;
     result ← for_lt j r_last push_back_deref result;
     copy result out)
      (Vec (pre ++ (l1 ++ l2) ++ (r1 ++ r2) ++ post) c)
    = copy (result ++ merge_lists comp l2 r2) out
        (Vec (pre ++ (l1 ++ l2) ++ (r1 ++ r2) ++ post) c').
Proof.
  induction n as [|n IH];
    intros l2 r2 pre l1 r1 post result c l_last r_last i j out Hi Hl Hj Hr Hn.
  - destruct l2, r2; simpl in Hn; try lia. exists c.
    cbn [merge_loop]. rewrite bool_decide_false by (simpl in *; lia).
    cbn [andb]. erewrite bind_Ret by reflexivity.
    unfold for_lt. simpl in Hl, Hr.
    replace (Z.to_nat (l_last - i)) with 0%nat by lia.
    replace (Z.to_nat (r_last - j)) with 0%nat by lia.
    simpl. by rewrite !(right_id_L [] (++)).
  - destruct l2 as [|x l2].
    { exists c. cbn [merge_loop].
      rewrite bool_decide_false by (simpl in *; lia).
      cbn [andb]. erewrite bind_Ret by reflexivity.
      unfold for_lt. simpl in Hl.
      replace (Z.to_nat (l_last - i)) with 0%nat by lia.
      erewrite bind_Ret by reflexivity.
      replace (Z.to_nat (r_last - j)) with (length r2) by lia.
      arr_shape ((pre ++ l1 ++ r1) ++ r2 ++ post).
      mstep read_range_run; [|rewrite !length_app; lia].
      by destruct r2. }
    destruct r2 as [|y r2].
    { exists c. cbn [merge_loop].
      rewrite (bool_decide_false (j < r_last)) by (simpl in *; lia).
      rewrite andb_false_r. erewrite bind_Ret by reflexivity.
      unfold for_lt.
      replace (Z.to_nat (l_last - i)) with (length (x :: l2)) by lia.
      simpl in Hr. replace (Z.to_nat (r_last - j)) with 0%nat by lia.
      arr_shape ((pre ++ l1) ++ (x :: l2) ++ (r1 ++ post)).
      mstep read_range_run; [|rewrite !length_app; lia].
      erewrite bind_Ret by reflexivity.
      by rewrite merge_lists_nil_r. }
    cbn [length] in *. cbn [merge_loop].
    rewrite !bool_decide_true by lia. cbn [andb].
    rewrite bind_assoc.
    arr_shape ((pre ++ l1) ++ x :: l2 ++ (r1 ++ y :: r2) ++ post).
    mstep deref_middle; [|rewrite length_app; lia].
    rewrite bind_assoc.
    arr_shape ((pre ++ l1 ++ x :: l2 ++ r1) ++ y :: r2 ++ post).
    mstep deref_middle; [|rewrite !length_app; cbn [length];
                          rewrite !length_app; lia].
    rewrite bind_assoc.
    mstep call_comp_run. rewrite merge_lists_cons.
    destruct (comp x y).
    + destruct (IH l2 (y :: r2) pre (l1 ++ [x]) r1 post (result ++ [x])
                  (S c) l_last r_last (i + 1) j out) as [c' Hc'];
        [rewrite length_app; simpl; lia|lia|lia|cbn [length]; lia
        |cbn [length]; lia|].
      exists c'.
      arr_shape (pre ++ ((l1 ++ [x]) ++ l2) ++ (r1 ++ y :: r2) ++ post).
      rewrite Hc'. by rewrite <- (assoc_L (++) result).
    + destruct (IH (x :: l2) r2 pre l1 (r1 ++ [y]) post (result ++ [y])
                  (S c) l_last r_last i (j + 1) out) as [c' Hc'];
        [lia|cbn [length]; lia|rewrite length_app; simpl; lia|lia
        |cbn [length]; lia|].
      exists c'.
      arr_shape (pre ++ (l1 ++ x :: l2) ++ ((r1 ++ [y]) ++ r2) ++ post).
      rewrite Hc'. by rewrite <- (assoc_L (++) result).
Qed.

Lemma merge_run l r pre post c l_first l_last r_last :
  l_first = Z.of_nat (length pre) →
  l_last = l_first + Z.of_nat (length l) →
  r_last = l_last + Z.of_nat (length r) →
  ∃ c', merge comp l_first l_last l_last r_last (Vec (pre ++ l ++ r ++ post) c)
        = Ret (tt, Vec (pre ++ merge_lists comp l r ++ post) c').
Proof.
  intros Hf Hl Hr. unfold merge.
  replace (for_lt l_first l_last push_back_deref (@nil A))
    with (for_up (length l) l_first push_back_deref (@nil A))
    by (unfold for_lt; f_equal; lia).
  mstep read_range_run.
  cbv zeta.
  replace (Z.to_nat (l_last - l_first) + Z.to_nat (r_last - l_last))%nat
    with (length l + length r)%nat by lia.
  destruct (merge_loop_run (length l + length r) l r pre [] [] post []
              c l_last r_last l_first l_last l_first) as [c' Hc'];
    [simpl; lia|lia|simpl; lia|lia|lia|].
  exists c'. cbn [app] in Hc'. rewrite Hc'.
  arr_shape (pre ++ (l ++ r) ++ post).
  apply copy_run; [done|]. by rewrite length_merge_lists, length_app.
Qed.

Lemma length_merge_sort_list fuel : ∀ l out,
  merge_sort_list comp fuel l = Some out → length out = length l.
Proof.
  induction fuel as [|fuel IH]; intros l out; [done|].
  cbn [merge_sort_list]. case_decide; [by intros [= ->]|].
  destruct (merge_sort_list comp fuel (take _ l)) as [l1|] eqn:H1; [|done].
  destruct (merge_sort_list comp fuel (drop _ l)) as [l2|] eqn:H2; [|done].
  intros [= <-]. apply IH in H1, H2.
  rewrite length_merge_lists, H1, H2, <- length_app. by rewrite take_drop.
Qed.

Lemma merge_sort_run fuel : ∀ l pre post c first last,
  first = Z.of_nat (length pre) →
  last = first + Z.of_nat (length l) →
  match merge_sort_list comp fuel l with
  | Some out =>
      ∃ c', merge_sort comp fuel first last (Vec (pre ++ l ++ post) c)
            = Ret (tt, Vec (pre ++ out ++ post) c')
  | None =>
      merge_sort comp fuel first last (Vec (pre ++ l ++ post) c) = Diverges
  end.
Proof.
  induction fuel as [|fuel IH]; intros l pre post c first last Hf Hl; [done|].
  cbn [merge_sort_list merge_sort]. case_decide as Hlen.
  { rewrite bool_decide_true by lia. by exists c. }
  rewrite bool_decide_false by lia.
  assert ((last - first) `quot` 2 = Z.of_nat (length l / 2)) as ->.
  { rewrite Z.quot_div_nonneg by lia. rewrite Nat2Z.inj_div.
    f_equal. lia. }
  set (mid := (length l / 2)%nat).
  assert (mid ≤ length l)%nat as Hmid by (apply Nat.Div0.div_le_upper_bound; lia).
  pose proof (IH (take mid l) pre (drop mid l ++ post) c first
                (first + Z.of_nat mid) Hf) as IH1.
  rewrite length_take_le in IH1 by done. specialize (IH1 eq_refl).
  rewrite (assoc_L (++) (take mid l)), take_drop in IH1.
  destruct (merge_sort_list comp fuel (take mid l)) as [l1|] eqn:H1;
    [|by apply bind_Diverges].
  destruct IH1 as [c1 IH1]. erewrite bind_Ret by exact IH1.
  apply length_merge_sort_list in H1.
  rewrite length_take_le in H1 by done.
  pose proof (IH (drop mid l) (pre ++ l1) post c1 (first + Z.of_nat mid)
                last) as IH2.
  rewrite length_app, length_drop in IH2.
  rewrite <- (assoc_L (++)) in IH2.
  destruct (merge_sort_list comp fuel (drop mid l)) as [l2|] eqn:H2; simpl.
  - destruct IH2 as [c2 IH2]; [lia..|]. erewrite bind_Ret by exact IH2.
    apply length_merge_sort_list in H2. rewrite length_drop in H2.
    rewrite <- (assoc_L (++)).
    apply merge_run; lia.
  - apply bind_Diverges, IH2; lia.
Qed.

End Runs.

(** ** Properties of the passes *)

Section Order.
Context {A : Type} (comp : A → A → bool).
Implicit Types (l pre suf rp : list A).

Abbreviation le := (le comp).
Abbreviation equiv_keys := (equiv_keys comp).
Abbreviation stable := (stable comp).

(** The comparator is a strict weak ordering, as the standard library
    asks of the [Compare] argument of a sort: it is asymmetric, and
    "does not come first" is transitive. *)
Hypothesis comp_asym : ∀ x y, comp x y = true → comp y x = false.
Hypothesis comp_negtrans :
  ∀ x y z, comp x y = false → comp y z = false → comp x z = false.

Lemma comp_irrefl x : comp x x = false.
Proof.
  destruct (comp x x) eqn:H; [|done].
  pose proof (comp_asym _ _ H). congruence.
Qed.

Lemma le_refl x : le x x.
Proof. apply comp_irrefl. Qed.

Lemma le_trans x y z : le x y → le y z → le x z.
Proof. intros Hxy Hyz. exact (comp_negtrans z y x Hyz Hxy). Qed.

Lemma lt_le x y : comp x y = true → le x y.
Proof. apply comp_asym. Qed.

#[local] Instance le_transitive : Transitive le.
Proof. intros x y z. apply le_trans. Qed.

(** Two elements that the comparator orders strictly do not both
    compare equal to a third one. *)
Lemma lt_not_equiv x y z :
  comp y x = true → equiv_keys z x → equiv_keys z y → False.
Proof.
  intros Hlt [Hzx Hxz] [Hzy Hyz].
  by rewrite (comp_negtrans y z x) in Hlt.
Qed.

Lemma filter_swap x y z l :
  comp y x = true →
  filter (equiv_keys z) (x :: y :: l) = filter (equiv_keys z) (y :: x :: l).
Proof.
  intros Hlt. rewrite !filter_cons.
  destruct (decide (equiv_keys z x)), (decide (equiv_keys z y)); try done.
  by destruct (lt_not_equiv x y z).
Qed.

Lemma filter_none (P : A → Prop) `{!∀ x, Decision (P x)} l :
  (∀ x, x ∈ l → ¬ P x) → filter P l = [].
Proof.
  induction l as [|x l IH]; intros Hl; [done|].
  rewrite filter_cons_False by (apply Hl; constructor).
  apply IH. intros y Hy. apply Hl. by constructor.
Qed.

Lemma stable_refl l : stable l l.
Proof. done. Qed.

Lemma stable_trans l1 l2 l3 : stable l1 l2 → stable l2 l3 → stable l1 l3.
Proof. intros H1 H2 z. by rewrite H2, H1. Qed.

Lemma stable_app l1 l1' l2 l2' :
  stable l1 l1' → stable l2 l2' → stable (l1 ++ l2) (l1' ++ l2').
Proof. intros H1 H2 z. by rewrite !filter_app, H1, H2. Qed.

(** *** insertion_sort *)

Lemma insertion_pass_perm t y rp : insertion_pass comp t y rp ≡ₚ y :: rp.
Proof.
  revert y. induction rp as [|x rp IH]; intros y; simpl; [done|].
  destruct (comp t x); rewrite IH.
  - rewrite <- Permutation_cons_append. apply Permutation_swap.
  - by rewrite <- Permutation_cons_append.
Qed.

Lemma insertion_passes_perm suf : ∀ pre,
  insertion_passes comp pre suf ≡ₚ pre ++ suf.
Proof.
  induction suf as [|t suf IH]; intros pre; simpl.
  - by rewrite (right_id_L [] (++)).
  - rewrite IH, insertion_pass_perm, reverse_Permutation. simpl.
    apply Permutation_middle.
Qed.

Lemma insertion_sort_list_perm l : insertion_sort_list comp l ≡ₚ l.
Proof. destruct l as [|x l]; [done|]. apply (insertion_passes_perm l [x]). Qed.

(** Once [t] has met an element that does not come after it, the rest of
    the inner loop changes nothing when the elements before are sorted. *)
Lemma insertion_pass_stopped t y rp :
  Forall (λ x, comp t x = false) rp →
  insertion_pass comp t y rp = reverse rp ++ [y].
Proof.
  revert y. induction rp as [|x rp IH]; intros y Hrp; [done|].
  apply Forall_cons in Hrp as [Hx Hrp]. simpl. rewrite Hx.
  by rewrite IH, reverse_cons.
Qed.

(** On a sorted prefix the inner loop inserts [t] after the elements that
    do not come after it. *)
Lemma insertion_pass_sorted t rp :
  StronglySorted le (reverse rp) →
  ∃ l1 l2, reverse rp = l1 ++ l2 ∧
    insertion_pass comp t t rp = l1 ++ t :: l2 ∧
    Forall (λ x, le x t) l1 ∧ Forall (λ x, comp t x = true) l2.
Proof.
  induction rp as [|x rp IH]; intros Hs.
  { exists [], []. by repeat split. }
  rewrite reverse_cons in *. apply StronglySorted_app in Hs as (Hle & Hs & _).
  simpl. destruct (comp t x) eqn:Htx.
  - destruct (IH Hs) as (l1 & l2 & Heq & Hpass & H1 & H2).
    exists l1, (l2 ++ [x]). rewrite Heq, Hpass.
    repeat split; [solve_app_eq|solve_app_eq|done|].
    apply Forall_app. split; [done|]. by apply Forall_singleton.
  - assert (Forall (λ z, comp t z = false) rp) as Hstop.
    { apply Forall_forall. intros z Hz.
      apply (le_trans z x t); [|done].
      apply Hle; [by apply elem_of_reverse|constructor]. }
    rewrite insertion_pass_stopped by done.
    exists (reverse rp ++ [x]), []. repeat split; [solve_app_eq|..|done].
    apply Forall_app. split; [|by apply Forall_singleton].
    apply Forall_forall. intros z Hz. rewrite elem_of_reverse in Hz.
    rewrite Forall_forall in Hstop. by apply Hstop.
Qed.

Lemma insertion_pass_StronglySorted t rp :
  StronglySorted le (reverse rp) →
  StronglySorted le (insertion_pass comp t t rp).
Proof.
  intros Hs. destruct (insertion_pass_sorted t rp Hs)
    as (l1 & l2 & Heq & -> & H1 & H2).
  rewrite Heq in Hs. apply StronglySorted_app in Hs as (H12 & Hs1 & Hs2).
  apply StronglySorted_app. split_and!; [|done|].
  - intros x1 x2 Hx1 [->|Hx2]%elem_of_cons.
    + rewrite Forall_forall in H1. by apply H1.
    + by apply H12.
  - apply SSorted_cons; [done|].
    eapply Forall_impl; [exact H2|]. intros z. apply lt_le.
Qed.

Lemma insertion_pass_stable t rp :
  StronglySorted le (reverse rp) →
  stable (reverse rp ++ [t]) (insertion_pass comp t t rp).
Proof.
  intros Hs z. destruct (insertion_pass_sorted t rp Hs)
    as (l1 & l2 & -> & -> & H1 & H2).
  rewrite <- (assoc_L (++)), !filter_app, !filter_cons, filter_nil.
  destruct (decide (equiv_keys z t)) as [Hzt|]; [|by rewrite (right_id_L [] (++))].
  assert (filter (equiv_keys z) l2 = []) as ->; [|done].
  apply filter_none. intros w Hw Hzw.
  apply (lt_not_equiv w t z); [|done..].
  rewrite Forall_forall in H2. by apply H2.
Qed.

Lemma insertion_passes_sorted suf : ∀ pre,
  StronglySorted le pre →
  StronglySorted le (insertion_passes comp pre suf) ∧
  stable (pre ++ suf) (insertion_passes comp pre suf).
Proof.
  induction suf as [|t suf IH]; intros pre Hpre; simpl.
  { split; [done|]. by rewrite (right_id_L [] (++)). }
  rewrite <- (reverse_involutive pre) in Hpre.
  destruct (IH (insertion_pass comp t t (reverse pre))) as [Hs Hst].
  { by apply insertion_pass_StronglySorted. }
  split; [done|].
  eapply stable_trans; [|exact Hst].
  change (pre ++ t :: suf) with (pre ++ [t] ++ suf).
  rewrite (assoc_L (++)). apply stable_app; [|done].
  rewrite <- (reverse_involutive pre) at 1.
  by apply insertion_pass_stable.
Qed.

Lemma insertion_sort_list_sorted l :
  StronglySorted le (insertion_sort_list comp l).
Proof.
  destruct l as [|x l]; [constructor|].
  apply insertion_passes_sorted. repeat constructor.
Qed.

Lemma insertion_sort_list_stable l : stable l (insertion_sort_list comp l).
Proof.
  destruct l as [|x l]; [done|].
  apply (insertion_passes_sorted l [x]). repeat constructor.
Qed.

(** *** shaker_sort *)

Lemma forward_pass_perm l : ∀ x b, (forward_pass comp x l b).1 ≡ₚ x :: l.
Proof.
  induction l as [|y l IH]; intros x b; simpl; [done|].
  destruct (comp y x).
  - specialize (IH x false). destruct (forward_pass comp x l false).
    simpl in *. rewrite IH. apply Permutation_swap.
  - specialize (IH y b). destruct (forward_pass comp y l b).
    simpl in *. by rewrite IH.
Qed.

Lemma forward_pass_stable l : ∀ x b,
  stable (x :: l) (forward_pass comp x l b).1.
Proof.
  induction l as [|y l IH]; intros x b z; simpl; [done|].
  destruct (comp y x) eqn:Hyx.
  - specialize (IH x false z). destruct (forward_pass comp x l false).
    simpl in *. rewrite (filter_swap x y) by done.
    rewrite !(filter_cons _ y). by rewrite IH.
  - specialize (IH y b z). destruct (forward_pass comp y l b).
    simpl in *. rewrite !(filter_cons _ x). by rewrite IH.
Qed.

(** The forward pass leaves an element that nothing comes after at the
    right end. *)
Lemma forward_pass_max l : ∀ x b,
  ∃ r0 mx, (forward_pass comp x l b).1 = r0 ++ [mx] ∧
    Forall (λ z, le z mx) r0 ∧ le x mx.
Proof.
  induction l as [|y l IH]; intros x b; simpl.
  { exists [], x. split_and!; [done|constructor|apply le_refl]. }
  destruct (comp y x) eqn:Hyx.
  - destruct (IH x false) as (r0 & mx & Hr & Hr0 & Hx).
    destruct (forward_pass comp x l false). simpl in *. subst.
    exists (y :: r0), mx. split_and!; [done| |done].
    constructor; [|done]. apply (le_trans y x mx); [|done]. by apply lt_le.
  - destruct (IH y b) as (r0 & mx & Hr & Hr0 & Hy).
    destruct (forward_pass comp y l b). simpl in *. subst.
    exists (x :: r0), mx.
    assert (le x mx) by (by apply (le_trans x y mx)).
    split_and!; [done| |done]. by constructor.
Qed.

(** A forward pass that leaves the flag set has swapped nothing, and has
    found every element in place. *)
Lemma forward_pass_no_swaps l : ∀ x b,
  (forward_pass comp x l b).2 = true →
  b = true ∧ (forward_pass comp x l b).1 = x :: l ∧
  StronglySorted le (x :: l).
Proof.
  induction l as [|y l IH]; intros x b; simpl.
  { intros ->. split_and!; [done..|repeat constructor]. }
  destruct (comp y x) eqn:Hyx.
  - specialize (IH x false). destruct (forward_pass comp x l false).
    simpl in *. intros Hb. by destruct (IH Hb) as [? _].
  - specialize (IH y b). destruct (forward_pass comp y l b).
    simpl in *. intros Hb. destruct (IH Hb) as (-> & -> & Hs).
    split_and!; [done..|].
    apply Sorted_StronglySorted; [apply _|].
    apply StronglySorted_Sorted in Hs.
    constructor; [done|]. by constructor.
Qed.

Lemma backward_pass_perm rp : ∀ y, backward_pass comp y rp ≡ₚ y :: rp.
Proof.
  induction rp as [|x rp IH]; intros y; simpl; [done|].
  destruct (comp y x); rewrite IH.
  - rewrite <- Permutation_cons_append. apply Permutation_swap.
  - by rewrite <- Permutation_cons_append.
Qed.

Lemma backward_pass_stable rp : ∀ y,
  stable (reverse rp ++ [y]) (backward_pass comp y rp).
Proof.
  induction rp as [|x rp IH]; intros y z; simpl; [done|].
  rewrite reverse_cons, <- (assoc_L (++)). cbn [app].
  destruct (comp y x) eqn:Hyx.
  - rewrite filter_app, IH, !filter_app. rewrite <- (assoc_L (++)).
    f_equal. apply (filter_swap x y z []) in Hyx. rewrite Hyx.
    by rewrite <- filter_app.
  - rewrite filter_app, IH, !filter_app. rewrite <- (assoc_L (++)).
    f_equal. by rewrite <- filter_app.
Qed.

(** The backward pass leaves an element that comes after nothing at the
    left end. *)
Lemma backward_pass_min rp : ∀ y,
  ∃ mn r1, backward_pass comp y rp = mn :: r1 ∧
    Forall (le mn) r1 ∧ le mn y.
Proof.
  induction rp as [|x rp IH]; intros y; simpl.
  { exists y, []. split_and!; [done|constructor|apply le_refl]. }
  destruct (comp y x) eqn:Hyx.
  - destruct (IH y) as (mn & r1 & -> & Hr1 & Hy).
    exists mn, (r1 ++ [x]). split_and!; [done| |done].
    apply Forall_app. split; [done|]. apply Forall_singleton.
    apply (le_trans mn y x); [done|]. by apply lt_le.
  - destruct (IH x) as (mn & r1 & -> & Hr1 & Hx).
    assert (le mn y) by (by apply (le_trans mn x y)).
    exists mn, (r1 ++ [y]). split_and!; [done| |done].
    apply Forall_app. split; [done|]. by apply Forall_singleton.
Qed.

(** The backward pass does not move its first element when nothing comes
    after it. *)
Lemma backward_pass_max rp y :
  Forall (λ z, le z y) rp →
  ∃ r, backward_pass comp y rp = r ++ [y] ∧ r ≡ₚ rp.
Proof.
  destruct rp as [|x rp]; intros Hrp; simpl.
  { by exists []. }
  apply Forall_cons in Hrp as [Hx _]. rewrite Hx.
  exists (backward_pass comp x rp). split; [done|]. apply backward_pass_perm.
Qed.

Lemma shaker_passes_perm n : ∀ mid b, shaker_passes comp n mid b ≡ₚ mid.
Proof.
  induction n as [|n IH]; intros [|x m] b; try done.
  cbn [shaker_passes].
  pose proof (forward_pass_perm m x b) as Hf.
  destruct (forward_pass comp x m b) as [r b']. cbn [fst] in Hf.
  destruct b'; [done|]. rewrite <- Hf.
  destruct (reverse r) as [|y rp] eqn:Hr.
  { done. }
  apply reverse_eq_cons in Hr. subst r.
  rewrite <- Permutation_cons_append, reverse_Permutation.
  rewrite <- (backward_pass_perm rp y).
  destruct (backward_pass comp y rp) as [|mn rest]; [done|].
  destruct (reverse rest) as [|mx rmid] eqn:Hrest.
  { apply (f_equal reverse) in Hrest.
    rewrite reverse_involutive in Hrest. by subst. }
  apply reverse_eq_cons in Hrest. subst rest.
  by rewrite IH.
Qed.

Lemma shaker_passes_stable n : ∀ mid b,
  stable mid (shaker_passes comp n mid b).
Proof.
  induction n as [|n IH]; intros [|x m] b; try done.
  cbn [shaker_passes].
  pose proof (forward_pass_stable m x b) as Hf.
  destruct (forward_pass comp x m b) as [r b']. cbn [fst] in Hf.
  destruct b'; [done|]. eapply stable_trans; [exact Hf|].
  destruct (reverse r) as [|y rp] eqn:Hr; [done|].
  apply reverse_eq_cons in Hr. subst r.
  eapply stable_trans; [apply backward_pass_stable|].
  destruct (backward_pass comp y rp) as [|mn rest].
  { done. }
  destruct (reverse rest) as [|mx rmid] eqn:Hrest.
  { apply (f_equal reverse) in Hrest.
    rewrite reverse_involutive in Hrest. by subst. }
  apply reverse_eq_cons in Hrest. subst rest.
  apply (stable_app [mn] [mn]); [done|].
  apply stable_app; [apply IH|done].
Qed.

Lemma shaker_passes_sorted n : ∀ mid b,
  (length mid ≤ n)%nat → StronglySorted le (shaker_passes comp n mid b).
Proof.
  induction n as [|n IH]; intros [|x m] b Hn; try (simpl in Hn; lia);
    try constructor.
  cbn [shaker_passes].
  pose proof (forward_pass_no_swaps m x b) as Hns.
  pose proof (forward_pass_max m x b) as (r0 & mx & Hr & Hr0 & _).
  pose proof (length_forward_pass comp x m b) as Hlen.
  destruct (forward_pass comp x m b) as [r b']. cbn [fst snd] in *.
  destruct b'; [by destruct Hns as (_ & -> & ?)|]. clear Hns. subst r.
  rewrite reverse_app. cbn [reverse app]. simpl.
  destruct (backward_pass_max (reverse r0) mx) as (r' & Hb & Hr').
  { apply Forall_forall. intros z Hz. rewrite elem_of_reverse in Hz.
    rewrite Forall_forall in Hr0. by apply Hr0. }
  destruct (backward_pass_min (reverse r0) mx) as (mn & r1 & Hb' & Hr1 & _).
  rewrite Hb'. rewrite Hb' in Hb.
  destruct (reverse r1) as [|mx' rmid] eqn:Hrev; [repeat constructor|].
  apply reverse_eq_cons in Hrev. subst r1.
  destruct r' as [|mn' r'].
  { apply (f_equal length) in Hb. rewrite length_app in Hb.
    simpl in Hb. rewrite length_app in Hb. simpl in Hb. lia. }
  cbn [app] in Hb. injection Hb as <- Hb.
  apply app_inj_tail in Hb as [<- <-].
  rewrite (reverse_Permutation r0) in Hr'.
  assert (length (reverse rmid) ≤ n)%nat as Hn'.
  { rewrite length_app in Hlen. apply Permutation_length in Hr'.
    simpl in *. lia. }
  specialize (IH (reverse rmid) false Hn').
  pose proof (shaker_passes_perm n (reverse rmid) false) as Hp.
  apply SSorted_cons.
  - apply StronglySorted_app. split_and!; [|done|repeat constructor].
    intros x1 x2 Hx1 ->%list_elem_of_singleton.
    rewrite Forall_forall in Hr0. apply Hr0. rewrite <- Hr'.
    rewrite Hp in Hx1. by constructor.
  - apply Forall_app in Hr1 as [Hr1 Hmx]. apply Forall_app.
    split; [|done]. by rewrite Hp.
Qed.

Lemma shaker_sort_list_perm l : shaker_sort_list comp l ≡ₚ l.
Proof. apply shaker_passes_perm. Qed.

Lemma shaker_sort_list_stable l : stable l (shaker_sort_list comp l).
Proof. apply shaker_passes_stable. Qed.

Lemma shaker_sort_list_sorted l : StronglySorted le (shaker_sort_list comp l).
Proof. by apply shaker_passes_sorted. Qed.

(** *** merge and merge_sort *)

Lemma merge_lists_perm l : ∀ r, merge_lists comp l r ≡ₚ l ++ r.
Proof.
  induction l as [|x l IHl]; intros r; [by destruct r|].
  induction r as [|y r IHr]; [by rewrite (right_id_L [] (++))|].
  rewrite merge_lists_cons. destruct (comp x y).
  - by rewrite IHl.
  - rewrite IHr. by rewrite <- Permutation_middle.
Qed.

Lemma merge_lists_sorted l : ∀ r,
  StronglySorted le l → StronglySorted le r →
  StronglySorted le (merge_lists comp l r).
Proof.
  induction l as [|x l IHl]; intros r Hl Hr; [by destruct r|].
  induction r as [|y r IHr]; [done|].
  apply StronglySorted_cons in Hl as Hl'. destruct Hl' as [Hxl Hl'].
  apply StronglySorted_cons in Hr as Hr'. destruct Hr' as [Hyr Hr'].
  rewrite merge_lists_cons. destruct (comp x y) eqn:Hxy.
  - apply SSorted_cons; [by apply IHl|].
    rewrite merge_lists_perm. apply Forall_app. split; [done|].
    assert (le x y) by (by apply lt_le). constructor; [done|].
    eapply Forall_impl; [exact Hyr|]. intros z. by apply le_trans.
  - apply SSorted_cons; [by apply IHr|].
    rewrite merge_lists_perm. apply Forall_app. split; [|done].
    constructor; [done|].
    eapply Forall_impl; [exact Hxl|]. intros z. by apply le_trans.
Qed.

Lemma merge_sort_list_nil fuel : merge_sort_list comp fuel [] = None.
Proof. induction fuel as [|fuel IH]; [done|]. simpl. by rewrite IH. Qed.

Lemma half_bounds (n : nat) :
  (2 ≤ n → 1 ≤ n / 2 ∧ n / 2 < n)%nat.
Proof.
  intros Hn. split.
  - apply Nat.div_le_lower_bound; lia.
  - apply Nat.div_lt; lia.
Qed.

(** The recursion of [merge_sort] on a range that is not empty is no
    deeper than the range is long. *)
Lemma merge_sort_list_is_Some fuel : ∀ l,
  (1 ≤ length l ≤ fuel)%nat → is_Some (merge_sort_list comp fuel l).
Proof.
  induction fuel as [|fuel IH]; intros l Hl; [lia|].
  cbn [merge_sort_list]. case_decide; [done|].
  destruct (half_bounds (length l)) as [Hlo Hhi]; [lia|].
  destruct (IH (take (length l / 2) l)) as [l1 ->].
  { rewrite length_take. lia. }
  destruct (IH (drop (length l / 2) l)) as [l2 ->].
  { rewrite length_drop. lia. }
  done.
Qed.

Lemma merge_sort_list_sorted fuel : ∀ l out,
  merge_sort_list comp fuel l = Some out →
  StronglySorted le out ∧ out ≡ₚ l.
Proof.
  induction fuel as [|fuel IH]; intros l out; [done|].
  cbn [merge_sort_list]. case_decide as Hlen.
  { intros [= <-]. split; [|done].
    destruct l as [|x [|??]]; try done. repeat constructor. }
  destruct (merge_sort_list comp fuel (take _ l)) as [l1|] eqn:H1; [|done].
  destruct (merge_sort_list comp fuel (drop _ l)) as [l2|] eqn:H2; [|done].
  intros [= <-]. apply IH in H1 as [Hs1 Hp1]. apply IH in H2 as [Hs2 Hp2].
  split; [by apply merge_lists_sorted|].
  by rewrite merge_lists_perm, Hp1, Hp2, take_drop.
Qed.

End Order.

(** ** The ordering of the records *)

#[global] Instance Z_TotalCompare : TotalCompare Z.compare.
Proof.
  split.
  - apply Z.compare_eq.
  - apply Z.compare_refl.
  - intros x y. apply Z.compare_antisym.
  - intros x y z. rewrite !Z.compare_lt_iff. lia.
Qed.

#[global] Instance string_TotalCompare : TotalCompare String.compare.
Proof.
  assert (∀ s, String.compare s s = Eq) as Hrefl.
  { intros s. pose proof (reflexivity (R:=String.le) s) as H.
    unfold String.le, String.leb in H.
    pose proof (String.compare_antisym s s) as Ha.
    destruct (String.compare s s); simpl in *; done. }
  split.
  - apply String.compare_eq_iff.
  - done.
  - intros x y. rewrite (String.compare_antisym y x). done.
  - intros x y z Hxy Hyz.
    assert (String.le x z) as Hxz.
    { trans y; unfold String.le, String.leb; [by rewrite Hxy|by rewrite Hyz]. }
    unfold String.le, String.leb in Hxz.
    destruct (String.compare x z) eqn:Hc; [|done..].
    apply String.compare_eq_iff in Hc as ->.
    rewrite (String.compare_antisym y z), Hxy in Hyz. done.
Qed.

#[global] Instance lex_TotalCompare {T1 T2} (cmp1 : T1 → T1 → comparison)
    (cmp2 : T2 → T2 → comparison) :
  TotalCompare cmp1 → TotalCompare cmp2 → TotalCompare (lex_compare cmp1 cmp2).
Proof.
  intros H1 H2. unfold lex_compare. split.
  - intros [x1 x2] [y1 y2]. simpl.
    destruct (cmp1 x1 y1) eqn:Hc; try done.
    intros ?%cmp_eq. apply cmp_eq in Hc. by subst.
  - intros [x1 x2]. simpl. by rewrite !cmp_refl.
  - intros [x1 x2] [y1 y2]. simpl. rewrite (cmp_antisym x1 y1).
    destruct (cmp1 x1 y1); simpl; [apply cmp_antisym|done..].
  - intros [x1 x2] [y1 y2] [z1 z2]. simpl.
    destruct (cmp1 x1 y1) eqn:Hxy; try done.
    + apply cmp_eq in Hxy as ->.
      destruct (cmp1 y1 z1); try done. apply cmp_trans.
    + intros _. destruct (cmp1 y1 z1) eqn:Hyz; try done.
      * apply cmp_eq in Hyz as ->. by rewrite Hxy.
      * by rewrite (cmp_trans _ _ _ Hxy Hyz).
Qed.

Lemma tuple_compare_lex x y :
  tuple_compare x y
  = lex_compare (lex_compare String.compare String.compare) Z.compare x y.
Proof.
  unfold tuple_compare, lex_compare. simpl.
  by destruct (String.compare x.1.1 y.1.1), (String.compare x.1.2 y.1.2).
Qed.

#[global] Instance tuple_TotalCompare : TotalCompare tuple_compare.
Proof.
  pose proof (lex_TotalCompare (lex_compare String.compare String.compare)
                Z.compare _ _) as [H1 H2 H3 H4].
  split; intros; rewrite ?tuple_compare_lex in *; eauto.
Qed.

Lemma less_Soldier_asym a b : less_Soldier a b = true → less_Soldier b a = false.
Proof.
  unfold less_Soldier, Soldier_lt.
  rewrite (cmp_antisym (tie a) (tie b)).
  by destruct (tuple_compare (tie a) (tie b)).
Qed.

Lemma less_Soldier_negtrans a b c :
  less_Soldier a b = false → less_Soldier b c = false →
  less_Soldier a c = false.
Proof.
  unfold less_Soldier, Soldier_lt. intros Hab Hbc.
  destruct (tuple_compare (tie a) (tie c)) eqn:Hac; try done.
  destruct (tuple_compare (tie a) (tie b)) eqn:Hab'; try done.
  - apply cmp_eq in Hab'. rewrite <- Hab', Hac in Hbc. done.
  - assert (tuple_compare (tie b) (tie a) = Lt) as Hba
      by (by rewrite (cmp_antisym (tie a) (tie b)), Hab').
    by rewrite (cmp_trans _ _ _ Hba Hac) in Hbc.
Qed.

(** Two records compare equal exactly when their key tuples are equal. *)
Lemma equiv_keys_tie a b : equiv_keys less_Soldier a b ↔ tie a = tie b.
Proof.
  unfold equiv_keys, less_Soldier, Soldier_lt. split.
  - intros [Hab Hba]. apply (cmp_eq (cmp:=tuple_compare)).
    rewrite (cmp_antisym (tie a) (tie b)) in Hba.
    by destruct (tuple_compare (tie a) (tie b)).
  - intros ->. by rewrite cmp_refl.
Qed.


(** * The sorting algorithms on records *)

Lemma merge_sort_empty {A} (comp : A → A → bool) fuel : ∀ (a : list A) c first,
  merge_sort comp fuel first first (Vec a c) = Diverges.
Proof.
  induction fuel as [|fuel IH]; intros a c first; [done|].
  cbn [merge_sort]. rewrite bool_decide_false by lia.
  replace (first - first) with 0 by lia.
  change (0 `quot` 2) with 0. rewrite Z.add_0_r.
  apply bind_Diverges, IH.
Qed.

Lemma merge_sort_empty_range {A} (comp : A → A → bool) fuel :
  ∀ (v : vec A) first, merge_sort comp fuel first first v = Diverges.
Proof.
  induction fuel as [|fuel IH]; intros v first; [done|].
  cbn [merge_sort]. rewrite bool_decide_false by lia.
  replace (first - first) with 0 by lia.
  change (0 `quot` 2) with 0. rewrite Z.add_0_r.
  apply bind_Diverges, IH.
Qed.

(** On a vector without storage [begin()] and [end()] are both the null
    pointer.  [insertion_sort] does not enter its loop. *)
Lemma insertion_sort_no_storage {A} (comp : A → A → bool) c :
  insertion_sort comp 0 0 (NoStorage c) = Ret (tt, NoStorage c).
Proof. reflexivity. Qed.

(** [shaker_sort] computes [last - 1], which lies above [first] there:
    it enters both loops and reads the element after [first]. *)
Lemma shaker_sort_no_storage {A} (comp : A → A → bool) c :
  shaker_sort comp 0 0 (NoStorage c) = Undefined.
Proof.
  unfold shaker_sort. erewrite bind_Ret by reflexivity. cbv zeta.
  assert (0 < (0 - 1) `mod` address_space) as HR by (by vm_compute).
  generalize dependent ((0 - 1) `mod` address_space). intros R HR.
  destruct (Z.to_nat (R - 0 + 1)) as [|n] eqn:Hn; [lia|].
  cbn [shaker_loop]. rewrite bool_decide_true by lia.
  unfold for_lt.
  destruct (Z.to_nat (R - 0)) as [|m] eqn:Hm; [lia|].
  rewrite for_up_S. reflexivity.
Qed.

Lemma merge_sort_nonempty {A} (comp : A → A → bool) (l : list A) fuel c :
  (1 ≤ length l ≤ fuel)%nat →
  ∃ out c', merge_sort comp fuel 0 (Z.of_nat (length l)) (Vec l c)
            = Ret (tt, Vec out c') ∧
    merge_sort_list comp fuel l = Some out.
Proof.
  intros Hl. destruct (merge_sort_list_is_Some comp fuel l Hl) as [out Hout].
  pose proof (merge_sort_run comp fuel l [] [] c 0 (Z.of_nat (length l))
                eq_refl) as Hrun.
  rewrite Hout in Hrun. destruct Hrun as [c' Hrun]; [lia|].
  exists out, c'. simpl in Hrun. by rewrite !(right_id_L [] (++)) in Hrun.
Qed.

Lemma sorts_intro (l out : list Soldier) o c :
  o = Ret (tt, Vec out c) →
  StronglySorted (le less_Soldier) out → out ≡ₚ l → sorts l o.
Proof.
  intros -> Hs Hp. exists out, c. split_and!; [done| |done].
  by apply StronglySorted_Sorted.
Qed.

(** C1. After [insertion_sort] and after [shaker_sort], run on any vector
    of records that has storage, with the ordering of the records, the
    vector is non-decreasing and holds the records it held before; so it
    is after [merge_sort] on a vector that is not empty.  On an empty
    vector, with storage or without, [merge_sort] does not return, however
    deep its recursion may go.  On the empty vector without storage
    [insertion_sort] returns, and [shaker_sort] reads outside the
    vector. *)
Theorem sorting_sorted_permutation (l : list Soldier) :
  let last := Z.of_nat (length l) in
  sorts l (insertion_sort less_Soldier 0 last (Vec l 0)) ∧
  sorts l (shaker_sort less_Soldier 0 last (Vec l 0)) ∧
  match l with
  | [] => ∀ fuel, merge_sort less_Soldier fuel 0 last (Vec l 0) = Diverges
  | _ :: _ => sorts l (merge_sort less_Soldier (length l) 0 last (Vec l 0))
  end ∧
  insertion_sort less_Soldier 0 0 (NoStorage 0) = Ret (tt, NoStorage 0) ∧
  shaker_sort less_Soldier 0 0 (NoStorage 0) = Undefined ∧
  ∀ fuel, merge_sort less_Soldier fuel 0 0 (NoStorage 0) = Diverges.
Proof.
  intros last. split_and!;
    [| | |reflexivity|apply shaker_sort_no_storage
     |intros fuel; apply merge_sort_empty_range].
  - destruct (insertion_sort_run less_Soldier l 0) as [c Hc].
    eapply sorts_intro; [exact Hc| |].
    + apply insertion_sort_list_sorted;
        [apply less_Soldier_asym|apply less_Soldier_negtrans].
    + apply insertion_sort_list_perm.
  - destruct (shaker_sort_run less_Soldier l 0) as [c Hc].
    eapply sorts_intro; [exact Hc| |].
    + apply shaker_sort_list_sorted;
        [apply less_Soldier_asym|apply less_Soldier_negtrans].
    + apply shaker_sort_list_perm.
  - destruct l as [|x l'] eqn:Hl.
    { intros fuel. apply merge_sort_empty. }
    rewrite <- Hl. subst last. rewrite <- Hl.
    destruct (merge_sort_nonempty less_Soldier l (length l) 0)
      as (out & c & Hrun & Hout); [subst l; simpl; lia|].
    apply merge_sort_list_sorted in Hout as [Hs Hp];
      [|apply less_Soldier_asym|apply less_Soldier_negtrans].
    by eapply sorts_intro.
Qed.

(** C2, as the code has it.  When the heads of the two ranges compare
    equal, [merge] takes the head of the right range first; so
    [merge_sort] exchanges two records with equal keys, and does not keep
    the order of records with equal keys. *)
Theorem merge_ties_take_right (x y : Soldier) :
  equiv_keys less_Soldier x y →
  (∀ l r pre post c,
    let l_first := Z.of_nat (length pre) in
    let l_last := l_first + Z.of_nat (length (x :: l)) in
    let r_last := l_last + Z.of_nat (length (y :: r)) in
    ∃ c', merge less_Soldier l_first l_last l_last r_last
            (Vec (pre ++ (x :: l) ++ (y :: r) ++ post) c)
          = Ret (tt, Vec (pre ++ (y :: merge_lists less_Soldier (x :: l) r)
                              ++ post) c')) ∧
  merge_sort less_Soldier 2 0 2 (Vec [x; y] 0) = Ret (tt, Vec [y; x] 1) ∧
  (x ≠ y → ¬ stable less_Soldier [x; y] [y; x]).
Proof.
  intros [Hxy Hyx]. split_and!.
  - intros l r pre post c l_first l_last r_last.
    destruct (merge_run less_Soldier (x :: l) (y :: r) pre post c
                l_first l_last r_last) as [c' Hc']; [done..|].
    exists c'. by rewrite Hc', merge_lists_cons, Hxy.
  - cbv -[less_Soldier]. rewrite Hxy. reflexivity.
  - intros Hne Hst. specialize (Hst x).
    rewrite !filter_cons, filter_nil in Hst.
    destruct (decide (equiv_keys less_Soldier x x)) as [_|[]];
      [|split; apply comp_irrefl, less_Soldier_asym].
    destruct (decide (equiv_keys less_Soldier x y)) as [_|[]]; [|done].
    congruence.
Qed.

(** C3.  On a range that is not empty the recursion of [merge_sort] is no
    deeper than the range is long, and [merge_sort] returns.  On an empty
    range, wherever it lies, it calls itself on the same range and never
    returns. *)
Theorem merge_sort_termination {A} (comp : A → A → bool) (l : list A) :
  match l with
  | [] => ∀ fuel (a : list A) c first,
      merge_sort comp fuel first first (Vec a c) = Diverges
  | _ :: _ => ∃ out c,
      merge_sort comp (length l) 0 (Z.of_nat (length l)) (Vec l 0)
      = Ret (tt, Vec out c)
  end.
Proof.
  destruct l as [|x l'] eqn:Hl.
  { intros fuel a c first. apply merge_sort_empty. }
  rewrite <- Hl.
  destruct (merge_sort_nonempty comp l (length l) 0)
    as (out & c & Hrun & _); [subst l; simpl; lia|].
  by exists out, c.
Qed.

(** C4.  On a vector of one element [insertion_sort], [shaker_sort] and
    [merge_sort] return with the vector as it was and without a call of
    the comparator.  On the empty vector [insertion_sort] does so as well,
    [shaker_sort] only when the vector has storage: on the empty vector
    without storage it reads outside the vector.  On the empty vector,
    with storage or without, [merge_sort] does not return. *)
Theorem boundary_sequences {A} (comp : A → A → bool) (x : A) :
  insertion_sort comp 0 0 (Vec [] 0) = Ret (tt, Vec [] 0) ∧
  insertion_sort comp 0 0 (NoStorage 0) = Ret (tt, NoStorage 0) ∧
  insertion_sort comp 0 1 (Vec [x] 0) = Ret (tt, Vec [x] 0) ∧
  shaker_sort comp 0 0 (Vec [] 0) = Ret (tt, Vec [] 0) ∧
  shaker_sort comp 0 0 (NoStorage 0) = Undefined ∧
  shaker_sort comp 0 1 (Vec [x] 0) = Ret (tt, Vec [x] 0) ∧
  (∀ fuel, merge_sort comp (S fuel) 0 1 (Vec [x] 0) = Ret (tt, Vec [x] 0)) ∧
  (∀ fuel, merge_sort comp fuel 0 0 (Vec [] 0) = Diverges) ∧
  (∀ fuel, merge_sort comp fuel 0 0 (NoStorage 0) = Diverges).
Proof.
  split_and!;
    [reflexivity..|apply shaker_sort_no_storage|reflexivity|reflexivity
     |intros fuel; apply merge_sort_empty_range
     |intros fuel; apply merge_sort_empty_range].
Qed.

(** C5.  [insertion_sort] and [shaker_sort], run on any vector of records
    that has storage, with the ordering of the records, return and leave
    the records whose keys compare equal in the order they had.  The one
    vector without storage is empty: [insertion_sort] returns it as it is,
    and [shaker_sort] gives no output, so that no two records change
    their order there either. *)
Theorem insertion_shaker_stable (l : list Soldier) :
  let last := Z.of_nat (length l) in
  sorts_stably l (insertion_sort less_Soldier 0 last (Vec l 0)) ∧
  sorts_stably l (shaker_sort less_Soldier 0 last (Vec l 0)) ∧
  insertion_sort less_Soldier 0 0 (NoStorage 0) = Ret (tt, NoStorage 0) ∧
  shaker_sort less_Soldier 0 0 (NoStorage 0) = Undefined.
Proof.
  intros last. split_and!; [| |reflexivity|apply shaker_sort_no_storage].
  - destruct (insertion_sort_run less_Soldier l 0) as [c Hc].
    exists (insertion_sort_list less_Soldier l), c. split; [done|].
    apply (insertion_sort_list_stable less_Soldier
             less_Soldier_asym less_Soldier_negtrans).
  - destruct (shaker_sort_run less_Soldier l 0) as [c Hc].
    exists (shaker_sort_list less_Soldier l), c. split; [done|].
    apply (shaker_sort_list_stable less_Soldier less_Soldier_negtrans).
Qed.

(** * The harness *)

Lemma string_length_app (s1 s2 : string) :
  String.length (s1 +:+ s2) = (String.length s1 + String.length s2)%nat.
Proof. induction s1 as [|a s1 IH]; simpl; [done|]. by rewrite IH. Qed.

Lemma string_app_inj_r (s a b : string) : a +:+ s = b +:+ s → a = b.
Proof.
  revert b. induction a as [|c a IH]; intros [|d b] H.
  - done.
  - apply (f_equal String.length) in H.
    rewrite !string_length_app in H. cbn [String.length] in H. lia.
  - apply (f_equal String.length) in H.
    rewrite !string_length_app in H. cbn [String.length] in H. lia.
  - change (String c (a +:+ s) = String d (b +:+ s)) in H.
    injection H as -> H. f_equal. by apply IH.
Qed.

(** The bounds on the iterations of [split] and of [read_csv] are never
    reached: a successful [getline] leaves fewer characters. *)
Lemma getline_chars_rest is_ del : ∀ t rest,
  getline_chars is_ del = (t, rest) →
  (String.length rest ≤ pred (String.length is_))%nat.
Proof.
  induction is_ as [|c s IH]; intros t rest H; cbn [getline_chars] in H.
  - by injection H as <- <-.
  - destruct (Ascii.eqb c del).
    { by injection H as <- <-. }
    destruct (getline_chars s del) as [t' rest'].
    injection H as <- <-. specialize (IH _ _ eq_refl). simpl. lia.
Qed.

Lemma getline_shorter is_ del t rest :
  getline is_ del = Some (t, rest) →
  (String.length rest < String.length is_)%nat.
Proof.
  unfold getline. destruct is_ as [|c s]; [done|].
  intros H. injection H as H.
  apply (getline_chars_rest (String c s)) in H. simpl in *. lia.
Qed.

Lemma split_loop_fuel n : ∀ m is_ del out,
  (String.length is_ ≤ n)%nat → (String.length is_ ≤ m)%nat →
  split_loop n is_ del out = split_loop m is_ del out.
Proof.
  induction n as [|n IH]; intros m is_ del out Hn Hm.
  - destruct is_; [|simpl in Hn; lia]. by destruct m.
  - destruct m as [|m].
    { destruct is_; [done|simpl in Hm; lia]. }
    cbn [split_loop]. destruct (getline is_ del) as [[t rest]|] eqn:Hg; [|done].
    apply getline_shorter in Hg. apply IH; lia.
Qed.

Lemma read_csv_loop_returns n : ∀ ifile data,
  (String.length ifile ≤ n)%nat → read_csv_loop n ifile data ≠ Diverges.
Proof.
  induction n as [|n IH]; intros ifile data Hn.
  - by destruct ifile; [|simpl in Hn; lia].
  - cbn [read_csv_loop].
    destruct (getline ifile newline) as [[line rest]|] eqn:Hg; [|done].
    apply getline_shorter in Hg.
    destruct (read_record line) as [obj| | |] eqn:Hr; simpl; try done.
    + apply IH. lia.
    + unfold read_record in Hr. unfold subscript, stoi in Hr.
      repeat (case_match; simpl in Hr; try done).
Qed.

Lemma dataset_out_inj i k : dataset_out i = dataset_out k → i = k.
Proof.
  unfold dataset_out. intros H%(inj (String.append _)).
  apply string_app_inj_r in H. by apply (inj pretty).
Qed.

Lemma dataset_in_out i k : dataset_in i ≠ dataset_out k.
Proof. unfold dataset_in, dataset_out. discriminate. Qed.

Section HarnessRuns.
Variable steady_clock : nat → Z.
Variable std_sort : list Soldier → list Soldier.

Lemma get_time_body_run fuel algo i x y w data sd :
  loaded w i data →
  sort_data std_sort fuel algo data = Ret sd →
  length y = Z.to_nat (i - 1) →
  get_time_body steady_clock std_sort fuel algo i (x, y) w
  = Ret ((x ++ [inject_Z (Z.of_nat (length sd))],
          y ++ [time_at steady_clock (clock_reads w)]),
         world_after steady_clock algo i sd w).
Proof.
  intros (content & Hf & Hr) Hs Hy.
  unfold get_time_body, read_csv.
  unfold mbind, M_bind, get, lift; simpl. rewrite Hf, Hr. simpl.
  rewrite Hs. unfold write_csv, mbind, M_bind, get, put; simpl.
  rewrite lookup_app_r, Hy, Nat.sub_diag by lia. simpl.
  unfold world_after, set_files.
  by destruct (writable w (dataset_out i)).
Qed.

Lemma loaded_world_after algo k sd w i data :
  loaded w i data → loaded (world_after steady_clock algo k sd w) i data.
Proof.
  intros (content & Hf & Hr). exists content. split; [|done]. simpl.
  destruct (writable w (dataset_out k)); [|done].
  rewrite lookup_insert_ne; [done|]. intros H.
  by apply (dataset_in_out i k).
Qed.

Lemma get_time_run fuel algo (data sd : Z → list Soldier) n : ∀ i x y w,
  (∀ k, i ≤ k < i + Z.of_nat n →
    loaded w k (data k) ∧ sort_data std_sort fuel algo (data k) = Ret (sd k)) →
  length y = Z.to_nat (i - 1) → 1 ≤ i →
  for_up n i (get_time_body steady_clock std_sort fuel algo) (x, y) w
  = Ret ((x ++ ((λ k, inject_Z (Z.of_nat (length (sd k))))
                  <$> seqZ i (Z.of_nat n)),
          y ++ ((λ k, time_at steady_clock (clock_reads w + 2 * k)) <$> seq 0 n)),
         worlds_after steady_clock algo sd n i w).
Proof.
  induction n as [|n IH]; intros i x y w Hk Hy Hi.
  { simpl. by rewrite !(right_id_L [] (++)). }
  rewrite for_up_S.
  destruct (Hk i) as [Hl Hs]; [lia|].
  mstep (get_time_body_run fuel algo i x y w (data i) (sd i)).
  rewrite IH; [|intros k Hk'; destruct (Hk k) as [??]; [lia|];
                split; [by apply loaded_world_after|done]
               |rewrite length_app; simpl; lia|lia].
  cbn [worlds_after]. f_equal. f_equal. f_equal.
  - rewrite <- (assoc_L (++)). f_equal.
    rewrite (seqZ_cons i) by lia. cbn [fmap list_fmap].
    do 3 f_equal; lia.
  - rewrite <- (assoc_L (++)). f_equal. cbn [seq fmap list_fmap].
    rewrite Nat.mul_0_r, Nat.add_0_r. f_equal.
    rewrite <- fmap_S_seq, <- list_fmap_compose.
    apply list_fmap_ext. intros _ k _. simpl. f_equal. lia.
Qed.

(** *** The worlds the loop goes through *)

Lemma worlds_after_writable algo sd n : ∀ i w,
  writable (worlds_after steady_clock algo sd n i w) = writable w.
Proof. induction n as [|n IH]; intros i w; [done|]. simpl. by rewrite IH. Qed.

Lemma worlds_after_clock_reads algo sd n : ∀ i w,
  clock_reads (worlds_after steady_clock algo sd n i w) = (clock_reads w + 2 * n)%nat.
Proof.
  induction n as [|n IH]; intros i w; simpl; [lia|]. rewrite IH. simpl. lia.
Qed.

Lemma worlds_after_files_other algo sd p n : ∀ i w,
  (∀ k, i ≤ k < i + Z.of_nat n → p ≠ dataset_out k) →
  files (worlds_after steady_clock algo sd n i w) !! p = files w !! p.
Proof.
  induction n as [|n IH]; intros i w Hp; [done|]. cbn [worlds_after].
  rewrite IH by (intros k Hk; apply Hp; lia). simpl.
  destruct (writable w (dataset_out i)); [|done].
  apply lookup_insert_ne. intros H. by apply (Hp i); [lia|].
Qed.

Lemma worlds_after_files_out algo sd n : ∀ i w k,
  (∀ k, i ≤ k < i + Z.of_nat n → writable w (dataset_out k) = true) →
  i ≤ k < i + Z.of_nat n →
  files (worlds_after steady_clock algo sd n i w) !! dataset_out k
  = Some (csv_lines (sd k)).
Proof.
  induction n as [|n IH]; intros i w k Hw Hk; [lia|]. cbn [worlds_after].
  destruct (decide (k = i)) as [->|Hne].
  - rewrite worlds_after_files_other.
    + simpl. rewrite Hw by lia. apply lookup_insert_eq.
    + intros k Hk' H. apply dataset_out_inj in H. lia.
  - apply IH; [|lia]. intros k' Hk'. simpl. apply Hw. lia.
Qed.

Lemma worlds_after_cerr algo sd n : ∀ i w,
  (∀ k, i ≤ k < i + Z.of_nat n → writable w (dataset_out k) = true) →
  cerr (worlds_after steady_clock algo sd n i w) = cerr w.
Proof.
  induction n as [|n IH]; intros i w Hw; [done|]. cbn [worlds_after].
  rewrite IH by (intros k' Hk'; simpl; apply Hw; lia).
  simpl. by rewrite Hw by lia.
Qed.

(** *** What the selected algorithm leaves in the vector *)

Lemma on_data_run (sort : Z → Z → M (vec Soldier) unit) data out c :
  sort 0 (Z.of_nat (length data)) (Vec data 0) = Ret (tt, Vec out c) →
  on_data sort data = Ret out.
Proof. unfold on_data. by intros ->. Qed.

Lemma sort_data_insertion_sort fuel data :
  sort_data std_sort fuel "insertion_sort" data
  = Ret (insertion_sort_list less_Soldier data).
Proof.
  unfold sort_data. rewrite decide_True by done.
  destruct (insertion_sort_run less_Soldier data 0) as [c Hc].
  by eapply on_data_run.
Qed.

Lemma sort_data_shaker_sort fuel data :
  sort_data std_sort fuel "shaker_sort" data
  = Ret (shaker_sort_list less_Soldier data).
Proof.
  unfold sort_data.
  rewrite decide_False, decide_True by done.
  destruct (shaker_sort_run less_Soldier data 0) as [c Hc].
  by eapply on_data_run.
Qed.

Lemma sort_data_merge_sort fuel data :
  (1 ≤ length data ≤ fuel)%nat →
  ∃ sd, sort_data std_sort fuel "merge_sort" data = Ret sd ∧
    merge_sort_list less_Soldier fuel data = Some sd.
Proof.
  intros Hl. unfold sort_data.
  rewrite !decide_False, decide_True by done.
  destruct (merge_sort_nonempty less_Soldier data fuel 0 Hl)
    as (sd & c & Hrun & Hsd).
  exists sd. split; [|done]. by eapply on_data_run.
Qed.

Lemma sort_data_merge_sort_empty fuel :
  sort_data std_sort fuel "merge_sort" [] = Diverges.
Proof.
  unfold sort_data.
  rewrite !decide_False, decide_True by done.
  unfold on_data. change (Z.of_nat (length [])) with 0.
  by rewrite merge_sort_empty.
Qed.

Lemma sort_data_std_sort fuel data :
  sort_data std_sort fuel "std::sort" data = Ret (std_sort data).
Proof.
  unfold sort_data.
  by rewrite !decide_False, decide_True by done.
Qed.

Lemma sort_data_other fuel algo data :
  algo ∉ ["insertion_sort"; "shaker_sort"; "merge_sort"; "std::sort"] →
  sort_data std_sort fuel algo data = Ret data.
Proof.
  intros Halgo. unfold sort_data.
  rewrite !decide_False; [done|intros ->; apply Halgo..];
    repeat (first [by left|right]).
Qed.

(** The size of the vector is the same after the sort. *)
Lemma sort_data_length fuel algo data sd :
  (∀ l, length (std_sort l) = length l) →
  sort_data std_sort fuel algo data = Ret sd → length sd = length data.
Proof.
  intros Hstd.
  destruct (decide (algo = "insertion_sort")) as [->|Hi].
  { rewrite sort_data_insertion_sort. intros [= <-].
    apply Permutation_length, insertion_sort_list_perm. }
  destruct (decide (algo = "shaker_sort")) as [->|Hs].
  { rewrite sort_data_shaker_sort. intros [= <-].
    apply Permutation_length, shaker_sort_list_perm. }
  destruct (decide (algo = "std::sort")) as [->|Hstd'].
  { rewrite sort_data_std_sort. intros [= <-]. apply Hstd. }
  destruct (decide (algo = "merge_sort")) as [->|Hm].
  - intros Hsd. destruct data as [|x data'] eqn:Hdata.
    { by rewrite sort_data_merge_sort_empty in Hsd. }
    rewrite <- Hdata in *.
    pose proof (merge_sort_run less_Soldier fuel data [] [] 0 0
                  (Z.of_nat (length data)) eq_refl) as Hrun.
    unfold sort_data in Hsd.
    rewrite !decide_False, decide_True in Hsd by done.
    unfold on_data in Hsd.
    destruct (merge_sort_list less_Soldier fuel data) as [out|] eqn:Hout.
    + destruct Hrun as [c Hrun]; [lia|]. simpl in Hrun.
      rewrite !(right_id_L [] (++)) in Hrun. rewrite Hrun in Hsd.
      injection Hsd as <-. simpl.
      by apply length_merge_sort_list in Hout.
    + simpl in Hrun. rewrite !(right_id_L [] (++)) in Hrun.
      rewrite Hrun in Hsd by lia. done.
  - rewrite sort_data_other; [by intros [= <-]|].
    intros H. repeat (apply elem_of_cons in H as [?|H]; [done|]).
    by apply elem_of_nil in H.
Qed.

(** *** The series *)

Lemma time_at_nonneg c :
  (∀ k, steady_clock k ≤ steady_clock (S k)) → Qle 0 (time_at steady_clock c).
Proof.
  intros Hclock. unfold time_at, elapsed_seconds, Qle.
  simpl. specialize (Hclock c). lia.
Qed.

(** With a clock that does not go back, and data sets that are read and
    sorted, [get_time] returns the sizes of the data sets in their order
    and as many times, none negative. *)
Lemma get_time_series fuel j algo w (data : Z → list Soldier) :
  (∀ k, steady_clock k ≤ steady_clock (S k)) →
  (∀ l, length (std_sort l) = length l) →
  (∀ i, 1 ≤ i ≤ j → loaded w i (data i) ∧
     ∃ sd, sort_data std_sort fuel algo (data i) = Ret sd) →
  ∃ y w', get_time steady_clock std_sort fuel j algo w
          = Ret (((λ i, inject_Z (Z.of_nat (length (data i))))
                    <$> seqZ 1 j, y), w') ∧
    length y = Z.to_nat j ∧ Forall (Qle 0) y.
Proof.
  intros Hclock Hstd Hdata.
  set (sd := λ i, match sort_data std_sort fuel algo (data i) with
                  | Ret sd => sd | _ => [] end).
  pose proof (get_time_run fuel algo data sd (Z.to_nat j) 1 [] [] w) as Hrun.
  unfold get_time.
  rewrite Hrun; [|intros k Hk; destruct (Hdata k) as [Hl [s Hs]]; [lia|];
                   split; [done|]; unfold sd; by rewrite Hs|done|lia].
  eexists _, _. split_and!.
  - f_equal. f_equal. cbn [app]. f_equal.
    destruct (decide (0 ≤ j)).
    + rewrite Z2Nat.id by done. apply list_fmap_ext.
      intros _ k Hk%list_elem_of_lookup_2%elem_of_seqZ. do 2 f_equal.
      destruct (Hdata k) as [_ [s Hs]]; [lia|]. unfold sd. rewrite Hs.
      by eapply sort_data_length.
    + replace (Z.to_nat j) with 0%nat by lia. simpl.
      by rewrite seqZ_nil by lia.
  - simpl. by rewrite length_fmap, length_seq.
  - simpl. apply Forall_fmap, Forall_forall. intros k _.
    by apply time_at_nonneg.
Qed.

(** *** What the harness does with its data sets *)

Lemma sort_data_nil fuel algo :
  algo ≠ "merge_sort" → (algo = "std::sort" → std_sort [] = []) →
  sort_data std_sort fuel algo [] = Ret [].
Proof.
  intros Hm Hstd.
  destruct (decide (algo = "insertion_sort")) as [->|Hi].
  { by rewrite sort_data_insertion_sort. }
  destruct (decide (algo = "shaker_sort")) as [->|Hs].
  { by rewrite sort_data_shaker_sort. }
  destruct (decide (algo = "std::sort")) as [->|Hstd'].
  { by rewrite sort_data_std_sort, Hstd. }
  apply sort_data_other.
  intros H. repeat (apply elem_of_cons in H as [?|H]; [done|]).
  by apply elem_of_nil in H.
Qed.

(** C6, as the code has it.  When the file of data set [i] cannot be
    opened, [read_csv] writes one line to the standard error stream, the
    same for every index, and the iteration goes on as for an empty
    data set when the selector is not [merge_sort]: it appends the size
    0 and the time measured, and writes the output file of the index,
    empty. *)
Theorem missing_dataset_continues fuel algo i x y w :
  files w !! dataset_in i = None →
  algo ≠ "merge_sort" →
  (algo = "std::sort" → std_sort [] = []) →
  length y = Z.to_nat (i - 1) →
  get_time_body steady_clock std_sort fuel algo i (x, y) w
  = Ret ((x ++ [0%Q], y ++ [time_at steady_clock (clock_reads w)]),
         world_after steady_clock algo i []
           (World (files w) (writable w)
              (cerr w ++ ["read_csv: Couldn't open file" +:+ endl])
              (cout w) (clock_reads w))).
Proof.
  intros Hf Hm Hstd Hy.
  unfold get_time_body, read_csv.
  unfold mbind, M_bind, get, lift; simpl. rewrite Hf. simpl.
  rewrite (sort_data_nil fuel algo Hm Hstd).
  unfold write_csv, mbind, M_bind, get, put; simpl.
  rewrite lookup_app_r, Hy, Nat.sub_diag by lia. simpl.
  unfold world_after, set_files. simpl.
  by destruct (writable w (dataset_out i)).
Qed.

(** C7.  The run of [shaker_sort] on data set 1 writes its sorted
    records to ["data/out/insertion/dataset_1.csv"], the file of the run
    of [insertion_sort], and to no other file. *)
Theorem output_sink_shared fuel :
  ∃ xy w',
    get_time steady_clock std_sort fuel 1 "shaker_sort" world_two_records
    = Ret (xy, w') ∧
    files w' !! "data/out/insertion/dataset_1.csv"
    = Some ("A,y,U1,200" +:+ endl +:+ "B,x,U2,100" +:+ endl) ∧
    ∀ p, p ≠ "data/out/insertion/dataset_1.csv" →
      files w' !! p = files world_two_records !! p.
Proof.
  set (data := [mkSoldier "B" "x" "U2" 100; mkSoldier "A" "y" "U1" 200]).
  pose proof (get_time_run fuel "shaker_sort" (λ _, data)
                (λ _, shaker_sort_list less_Soldier data) 1 1 [] []
                world_two_records) as Hrun.
  unfold get_time. change (Z.to_nat 1) with 1%nat.
  rewrite Hrun; [|intros k Hk|done|done].
  - eexists _, _. split; [done|]. split; [by vm_compute|].
    intros p Hp. simpl. by apply lookup_insert_ne.
  - assert (k = 1) as -> by lia. split.
    + exists ("B,x,U2,100" +:+ endl +:+ "A,y,U1,200" +:+ endl).
      split; by vm_compute.
    + apply sort_data_shaker_sort.
Qed.

Lemma get_time_body_merge_sort_empty fuel i x y w w' :
  read_csv (dataset_in i) w = Ret ([], w') →
  get_time_body steady_clock std_sort fuel "merge_sort" i (x, y) w = Diverges.
Proof.
  intros Hread. unfold get_time_body.
  erewrite bind_Ret by exact Hread.
  erewrite bind_Ret by reflexivity.
  apply bind_Diverges. unfold lift.
  by rewrite sort_data_merge_sort_empty.
Qed.

(** C9.  With the selector [merge_sort], [get_time] does not return when
    the file of data set 1 is missing, nor when it is empty: the vector
    is empty then and [merge_sort] does not return on it. *)
Theorem get_time_merge_sort_empty fuel :
  get_time steady_clock std_sort fuel 1 "merge_sort" world_no_dataset
  = Diverges ∧
  get_time steady_clock std_sort fuel 1 "merge_sort" world_empty_dataset
  = Diverges.
Proof.
  unfold get_time. change (Z.to_nat 1) with 1%nat.
  split; rewrite for_up_S; apply bind_Diverges;
    eapply get_time_body_merge_sort_empty; by vm_compute.
Qed.

(** C10.  With a selector that is none of the four names, and data sets
    that are read, [get_time] sorts nothing and returns.  The sizes are
    those of the data sets in their order; the time of every index is the
    second reading of the clock in its iteration less the first one, in
    seconds; and the output file of every index holds the records in the
    order of the data set. *)
Theorem unknown_selector fuel j algo w (data : Z → list Soldier) :
  algo ∉ ["insertion_sort"; "shaker_sort"; "merge_sort"; "std::sort"] →
  (∀ i, 1 ≤ i ≤ j → loaded w i (data i)) →
  (∀ i, 1 ≤ i ≤ j → writable w (dataset_out i) = true) →
  (∀ d, sort_data std_sort fuel algo d = Ret d) ∧
  ∃ w', get_time steady_clock std_sort fuel j algo w
        = Ret (((λ i, inject_Z (Z.of_nat (length (data i)))) <$> seqZ 1 j,
                (λ k : nat,
                   Qmake (steady_clock (S (clock_reads w + 2 * k))
                          - steady_clock (clock_reads w + 2 * k))
                     1000000000) <$> seq 0 (Z.to_nat j)), w') ∧
    (∀ i, 1 ≤ i ≤ j →
      files w' !! dataset_out i = Some (csv_lines (data i))) ∧
    cerr w' = cerr w.
Proof.
  intros Halgo Hdata Hw. split; [intros d; by apply sort_data_other|].
  pose proof (get_time_run fuel algo data data (Z.to_nat j) 1 [] [] w)
    as Hrun.
  unfold get_time.
  rewrite Hrun; [|intros k Hk; split; [apply Hdata; lia|]; 
                   by apply sort_data_other|done|lia].
  eexists _. split_and!.
  - f_equal. f_equal. cbn [app]. f_equal.
    destruct (decide (0 ≤ j)); [by rewrite Z2Nat.id|].
    replace (Z.to_nat j) with 0%nat by lia. simpl.
    by rewrite seqZ_nil by lia.
  - intros i Hi. apply worlds_after_files_out; [|lia].
    intros k Hk. apply Hw. lia.
  - apply worlds_after_cerr. intros k Hk. apply Hw. lia.
Qed.

End HarnessRuns.

(** ** Texts, [split] and the numbers [write_csv] writes *)

Lemma string_app_nil_l (s : string) : EmptyString +:+ s = s.
Proof. done. Qed.

Lemma string_app_cons (c : ascii) (s1 s2 : string) :
  String c s1 +:+ s2 = String c (s1 +:+ s2).
Proof. done. Qed.

Lemma string_app_assoc (s1 s2 s3 : string) :
  (s1 +:+ s2) +:+ s3 = s1 +:+ (s2 +:+ s3).
Proof.
  induction s1 as [|c s1 IH]; [done|].
  by rewrite !string_app_cons, IH.
Qed.

Lemma chars_app (s1 s2 : string) :
  list_ascii_of_string (s1 +:+ s2)
  = list_ascii_of_string s1 ++ list_ascii_of_string s2.
Proof.
  induction s1 as [|c s1 IH]; [done|].
  rewrite string_app_cons. simpl. by rewrite IH.
Qed.

Lemma getline_chars_spec is_ del : ∀ t rest,
  getline_chars is_ del = (t, rest) →
  (del ∉ list_ascii_of_string t) ∧
  (is_ = t +:+ String del rest ∨ (is_ = t ∧ rest = EmptyString)).
Proof.
  induction is_ as [|c s IH]; intros t rest H; cbn [getline_chars] in H.
  - injection H as <- <-. split; [apply not_elem_of_nil|by right].
  - destruct (Ascii.eqb c del) eqn:Hc.
    + apply Ascii.eqb_eq in Hc as ->. injection H as <- <-.
      split; [apply not_elem_of_nil|by left].
    + apply Ascii.eqb_neq in Hc.
      destruct (getline_chars s del) as [t' rest'].
      injection H as <- <-. destruct (IH _ _ eq_refl) as [Ht' Hs].
      split.
      * simpl. intros [->|?]%elem_of_cons; done.
      * destruct Hs as [->|[-> ->]]; [by left|by right].
Qed.

Lemma split_loop_spec del n : ∀ is_ out,
  (String.length is_ ≤ n)%nat →
  ∃ fields, split_loop n is_ del out = out ++ fields ∧
    Forall (λ f, del ∉ list_ascii_of_string f) fields ∧
    (fields = [] → is_ = EmptyString) ∧
    (is_ = join del fields ∨
     is_ = join del fields +:+ String del EmptyString).
Proof.
  induction n as [|n IH]; intros is_ out Hn.
  { destruct is_; [|simpl in Hn; lia]. exists []. simpl.
    rewrite (right_id_L [] (++)). split_and!; [done..|by left]. }
  cbn [split_loop]. destruct (getline is_ del) as [[t rest]|] eqn:Hg.
  2:{ destruct is_; [|done]. exists [].
      rewrite (right_id_L [] (++)). split_and!; [done..|by left]. }
  pose proof (getline_shorter _ _ _ _ Hg) as Hlen.
  unfold getline in Hg. destruct is_ as [|c s]; [done|].
  injection Hg as Hg.
  apply (getline_chars_spec (String c s)) in Hg as [Ht Hs].
  destruct Hs as [Hs|[Hs ->]].
  - destruct (IH rest (out ++ [t])) as (fs & Hrun & Hfs & Hnil & Hjoin);
      [lia|].
    exists (t :: fs). rewrite Hrun, <- (assoc_L (++)). rewrite Hs.
    split_and!; [done|by constructor|done|].
    destruct fs as [|f fs].
    + rewrite (Hnil eq_refl). by right.
    + cbn [join]. destruct Hjoin as [->| ->]; [by left|right].
      by rewrite string_app_assoc, string_app_cons.
  - exists [t]. rewrite Hs. split_and!; [|by repeat constructor|done|by left].
    by destruct n.
Qed.

Lemma digit_pretty_N_char (n : N) :
  (n < 10)%N → digit (pretty_N_char n) = Some (Z.of_N n).
Proof.
  intros Hn.
  assert (n = 0 ∨ n = 1 ∨ n = 2 ∨ n = 3 ∨ n = 4 ∨ n = 5 ∨ n = 6 ∨ n = 7
          ∨ n = 8 ∨ n = 9)%N as H by lia.
  destruct_or!; by subst.
Qed.

(** A digit is no white space, no sign, no comma and no line break. *)
Lemma digit_char c v :
  digit c = Some v →
  isspace c = false ∧ c ≠ "-"%char ∧ c ≠ "+"%char ∧ c ≠ ","%char ∧
  c ≠ newline.
Proof.
  unfold digit, isspace. cbv zeta. case_bool_decide as Hc; [|done]. intros _.
  split_and!; [apply bool_decide_eq_false; lia|..];
    intros ->; cbv -[Z.le] in Hc; lia.
Qed.

(** The text of a positive number starts with a digit, is made of digits,
    and [read_digits] reads the number from it. *)
Lemma pretty_N_go_digits (x : N) :
  (0 < x)%N → ∀ s,
  (∃ c s', pretty_N_go x s = String c s' ∧ is_Some (digit c)) ∧
  (∀ c, c ∈ list_ascii_of_string (pretty_N_go x s) →
     is_Some (digit c) ∨ c ∈ list_ascii_of_string s) ∧
  (∀ acc, ∃ k : Z, 0 ≤ k ∧
     read_digits (pretty_N_go x s) acc
     = read_digits s (Some (default 0 acc * 10 ^ k + Z.of_N x))).
Proof.
  induction (N.lt_wf_0 x) as [x _ IH]; intros Hx s.
  rewrite pretty_N_go_step by done.
  pose proof (digit_pretty_N_char (x `mod` 10)
                (N.mod_upper_bound x 10 ltac:(done))) as Hd.
  destruct (decide (x `div` 10 = 0)%N) as [H0|H0].
  - rewrite H0, pretty_N_go_0. split_and!.
    + eexists _, _. split; [done|]. by rewrite Hd.
    + intros c [->|Hc]%elem_of_cons; [left; by rewrite Hd|by right].
    + intros acc. exists 1. split; [lia|]. cbn [read_digits]. rewrite Hd.
      do 2 f_equal.
      assert (x = x `mod` 10)%N as <-; [|lia].
      rewrite (N.div_mod x 10) at 1 by done. lia.
  - destruct (IH (x `div` 10)%N) with
      (s := String (pretty_N_char (x `mod` 10)) s) as (Hfirst & Hall & Hread).
    { apply N.div_lt; lia. }
    { by apply N.neq_0_lt_0. }
    split_and!.
    + done.
    + intros c Hc. destruct (Hall c Hc) as [?|[->|?]%elem_of_cons];
        [by left|left; by rewrite Hd|by right].
    + intros acc. destruct (Hread acc) as (k & Hk & ->).
      exists (k + 1). split; [lia|]. cbn [read_digits]. rewrite Hd.
      do 2 f_equal. cbn [default]. rewrite Z.pow_add_r by lia.
      pose proof (N.div_mod x 10 ltac:(done)) as Hdm.
      change (10 ^ 1) with 10.
      generalize dependent (x `div` 10)%N. generalize (x `mod` 10)%N.
      generalize (10 ^ k). clear. intros. unfold id. lia.
Qed.

Lemma strtol_pretty (z : Z) : strtol (pretty z) = Some z.
Proof.
  destruct z as [|p|p]; [done|..].
  - change (pretty (Z.pos p)) with (pretty_N_go (N.pos p) EmptyString).
    destruct (pretty_N_go_digits (N.pos p) ltac:(done) EmptyString)
      as ((c & s' & Heq & [v Hv]) & _ & Hread).
    destruct (Hread None) as (k & _ & Hr). unfold strtol.
    rewrite Heq. destruct (digit_char c v Hv) as (Hsp & Hm & Hp & _).
    cbn [skip_space]. rewrite Hsp.
    assert ((let '(negative, s) :=
               match String c s' with
               | String "-" s0 => (true, s0)
               | String "+" s0 => (false, s0)
               | _ => (false, String c s')
               end in
             v0 ← read_digits s None;
             Some (if negative : bool then - v0 else v0))
            = (v0 ← read_digits (String c s') None; Some v0)) as ->.
    { destruct c as [[] [] [] [] [] [] [] []]; done. }
    rewrite <- Heq, Hr. simpl. f_equal; lia.
  - change (pretty (Z.neg p))
      with (String "-" (pretty_N_go (N.pos p) EmptyString)).
    destruct (pretty_N_go_digits (N.pos p) ltac:(done) EmptyString)
      as (_ & _ & Hread).
    destruct (Hread None) as (k & _ & Hr). unfold strtol.
    cbn [skip_space]. change (isspace "-") with false. cbv iota beta.
    rewrite Hr. simpl. f_equal; lia.
Qed.

Lemma pretty_plain (z : Z) : plain (pretty z).
Proof.
  assert (∀ c, c ∈ list_ascii_of_string (pretty z) →
               c = "-"%char ∨ is_Some (digit c)) as Hc.
  { destruct z as [|p|p].
    - intros c [->|[]%elem_of_nil]%elem_of_cons. right. by eexists.
    - change (pretty (Z.pos p)) with (pretty_N_go (N.pos p) EmptyString).
      destruct (pretty_N_go_digits (N.pos p) ltac:(done) EmptyString)
        as (_ & Hall & _).
      intros c Hc. destruct (Hall c Hc) as [?|[]%elem_of_nil]. by right.
    - change (pretty (Z.neg p))
        with (String "-" (pretty_N_go (N.pos p) EmptyString)).
      destruct (pretty_N_go_digits (N.pos p) ltac:(done) EmptyString)
        as (_ & Hall & _).
      intros c [->|Hc]%elem_of_cons; [by left|].
      destruct (Hall c Hc) as [?|[]%elem_of_nil]. by right. }
  split; intros [H|[v Hv]]%Hc; try done;
    by destruct (digit_char _ v Hv) as (_ & _ & _ & ? & ?).
Qed.

Lemma getline_chars_field f del rest :
  del ∉ list_ascii_of_string f →
  getline_chars (f +:+ String del rest) del = (f, rest).
Proof.
  induction f as [|c f IH]; intros Hf.
  - rewrite string_app_nil_l. cbn [getline_chars]. by rewrite Ascii.eqb_refl.
  - rewrite string_app_cons. cbn [getline_chars].
    simpl in Hf. apply not_elem_of_cons in Hf as [Hc Hf].
    destruct (Ascii.eqb c del) eqn:Heq; [by apply Ascii.eqb_eq in Heq|].
    by rewrite IH.
Qed.

Lemma getline_field f del rest :
  del ∉ list_ascii_of_string f →
  getline (f +:+ String del rest) del = Some (f, rest).
Proof.
  intros Hf. unfold getline. rewrite <- (getline_chars_field f del rest Hf).
  by destruct f.
Qed.

Lemma getline_last f del :
  del ∉ list_ascii_of_string f → f ≠ EmptyString →
  getline f del = Some (f, EmptyString).
Proof.
  intros Hf Hne. unfold getline. destruct f as [|c f]; [done|]. f_equal.
  clear Hne. induction (String c f) as [|c' f' IH]; [done|].
  cbn [getline_chars]. simpl in Hf. apply not_elem_of_cons in Hf as [Hc Hf].
  destruct (Ascii.eqb c' del) eqn:Heq; [by apply Ascii.eqb_eq in Heq|].
  by rewrite IH.
Qed.

Lemma split_four (a b c d : string) (del : ascii) :
  del ∉ list_ascii_of_string a → del ∉ list_ascii_of_string b →
  del ∉ list_ascii_of_string c → del ∉ list_ascii_of_string d →
  d ≠ EmptyString →
  split (join del [a; b; c; d]) del = [a; b; c; d].
Proof.
  intros Ha Hb Hc Hd Hne. unfold split.
  rewrite (split_loop_fuel _ (4 + String.length (join del [a; b; c; d])))
    by lia.
  cbn [join Nat.add split_loop].
  rewrite getline_field by done. cbn [split_loop app].
  rewrite getline_field by done. cbn [split_loop app].
  rewrite getline_field by done. cbn [split_loop app].
  rewrite getline_last by done.
  by destruct (String.length _).
Qed.

Lemma pretty_nonempty (z : Z) : pretty z ≠ EmptyString.
Proof.
  intros H. pose proof (strtol_pretty z) as Hs. by rewrite H in Hs.
Qed.

Lemma read_record_written (v : Soldier) :
  csv_safe v →
  read_record (join "," [full_name v; job v; unit_ v; pretty (salary v)])
  = Ret v.
Proof.
  intros ([Hn _] & [Hj _] & [Hu _] & Hs). unfold read_record.
  rewrite split_four;
    [|done..|apply pretty_plain|apply pretty_nonempty].
  simpl. unfold stoi. rewrite strtol_pretty.
  rewrite bool_decide_true by done. by destruct v.
Qed.

Lemma csv_line_join (v : Soldier) (rest : string) :
  csv_line v +:+ rest
  = join "," [full_name v; job v; unit_ v; pretty (salary v)]
    +:+ String newline rest.
Proof.
  unfold csv_line, endl. cbn [join].
  by rewrite ?string_app_assoc, ?string_app_cons, ?string_app_nil_l,
    ?string_app_assoc, ?string_app_cons, ?string_app_assoc, ?string_app_cons.
Qed.

Lemma record_text_no_newline (v : Soldier) :
  csv_safe v →
  newline
  ∉ list_ascii_of_string
      (join "," [full_name v; job v; unit_ v; pretty (salary v)]).
Proof.
  intros ([_ Hn] & [_ Hj] & [_ Hu] & _).
  destruct (pretty_plain (salary v)) as [_ Hp]. cbn [join].
  rewrite !chars_app. cbn [list_ascii_of_string].
  rewrite !chars_app. cbn [list_ascii_of_string].
  rewrite !chars_app. cbn [list_ascii_of_string].
  repeat first [rewrite elem_of_app | rewrite elem_of_cons].
  intros H. destruct_or!; try done; by vm_compute in H.
Qed.

Lemma read_csv_loop_written data : ∀ n acc,
  Forall csv_safe data →
  (String.length (csv_lines data) ≤ n)%nat →
  read_csv_loop n (csv_lines data) acc = Ret (acc ++ data).
Proof.
  induction data as [|v data IH]; intros n acc Hsafe Hn.
  { destruct n; simpl; by rewrite (right_id_L [] (++)). }
  apply Forall_cons in Hsafe as [Hv Hsafe].
  cbn [csv_lines foldr] in *. fold (csv_lines data) in *.
  rewrite csv_line_join in *.
  rewrite string_length_app in Hn. cbn [String.length] in Hn.
  destruct n as [|n]; [lia|]. cbn [read_csv_loop].
  rewrite getline_field by by apply record_text_no_newline.
  rewrite read_record_written by done. simpl.
  rewrite IH by (done || lia). by rewrite <- (assoc_L (++)).
Qed.

(** *** What [split] returns for fields that were joined *)

Lemma drop_empty_last_cons f g fields :
  drop_empty_last (f :: g :: fields) = f :: drop_empty_last (g :: fields).
Proof. done. Qed.

Lemma join_cons del f g fields :
  join del (f :: g :: fields) = f +:+ String del (join del (g :: fields)).
Proof. done. Qed.

Lemma split_loop_join del fields : ∀ out n,
  Forall (λ f, del ∉ list_ascii_of_string f) fields →
  (String.length (join del fields) ≤ n)%nat →
  split_loop n (join del fields) del out = out ++ drop_empty_last fields.
Proof.
  induction fields as [|f fields IH]; intros out n Hf Hn.
  { destruct n; simpl; by rewrite (right_id_L [] (++)). }
  apply Forall_cons in Hf as [Hf Hfs].
  destruct fields as [|g fields].
  - cbn [join drop_empty_last] in *. case_decide as He.
    { subst f. destruct n; simpl; by rewrite (right_id_L [] (++)). }
    destruct n as [|n]; [destruct f; [done|simpl in Hn; lia]|].
    cbn [split_loop]. rewrite getline_last by done.
    by destruct n.
  - rewrite join_cons in *. rewrite drop_empty_last_cons.
    rewrite string_length_app in Hn. cbn [String.length] in Hn.
    destruct n as [|n]; [lia|].
    cbn [split_loop]. rewrite getline_field by done.
    rewrite IH by (done || lia). by rewrite <- (assoc_L (++)).
Qed.

Lemma split_join del fields :
  Forall (λ f, del ∉ list_ascii_of_string f) fields →
  split (join del fields) del = drop_empty_last fields.
Proof. intros Hf. unfold split. by rewrite split_loop_join. Qed.

(** ** Parsing a record *)

(** *** The number at the start of a text *)







(** *** A line that [split] cuts into fewer than four fields *)


(** *** The records read before a line that raises an exception *)





(** * Counterexamples and instances *)

(** C2: the heads [clerk] and [driver] compare equal, and [merge] puts
    the right one first; [merge_sort] turns the vector [clerk; driver]
    into [driver; clerk]. *)
Lemma merge_ties_counterexample :
  equiv_keys less_Soldier clerk driver ∧
  merge less_Soldier 0 1 1 2 (Vec [clerk; driver] 0)
  = Ret (tt, Vec [driver; clerk] 1) ∧
  merge_sort less_Soldier 2 0 2 (Vec [clerk; driver] 0)
  = Ret (tt, Vec [driver; clerk] 1) ∧
  ¬ stable less_Soldier [clerk; driver] [driver; clerk].
Proof.
  split_and!; [by vm_compute..|].
  intros H. specialize (H clerk). vm_compute in H. discriminate.
Qed.

Lemma merge_ties_take_right_witness :
  equiv_keys less_Soldier clerk driver ∧
  merge_sort less_Soldier 2 0 2 (Vec [clerk; driver] 0)
  = Ret (tt, Vec [driver; clerk] 1).
Proof.
  assert (equiv_keys less_Soldier clerk driver) as H by (by vm_compute).
  split; [exact H|].
  exact (proj1 (proj2 (merge_ties_take_right clerk driver H))).
Defined.

(** C6: no file for data set 1.  The run of [insertion_sort] returns a
    sample of size 0 for the index and writes an empty output file; the
    only trace is a line on the standard error stream that does not name
    the index. *)
Lemma missing_dataset_counterexample :
  ∃ t w', get_time example_clock id 0 1 "insertion_sort" world_no_dataset
          = Ret (([0%Q], [t]), w') ∧
    cerr w' = ["read_csv: Couldn't open file" +:+ endl] ∧
    files w' !! "data/out/insertion/dataset_1.csv" = Some EmptyString.
Proof. eexists _, _. split_and!; by vm_compute. Qed.

Lemma missing_dataset_continues_witness :
  files world_no_dataset !! dataset_in 1 = None ∧
  get_time_body example_clock id 0 "insertion_sort" 1 ([], [])
    world_no_dataset
  = Ret (([0%Q], [time_at example_clock 0]),
         world_after example_clock "insertion_sort" 1 []
           (World ∅ (λ _, true) ["read_csv: Couldn't open file" +:+ endl]
              [] 0)).
Proof.
  split; [reflexivity|].
  apply (missing_dataset_continues example_clock id 0 "insertion_sort" 1
           [] [] world_no_dataset);
    [reflexivity|discriminate|discriminate|reflexivity].
Defined.



(** C10 on the data set of two records, with a selector that names no
    algorithm and a clock that a reading advances by a microsecond: the
    size is 2, the time a microsecond, and the output file has the
    records in the order of the input. *)
Lemma unknown_selector_witness :
  ("quick_sort"
   ∉ ["insertion_sort"; "shaker_sort"; "merge_sort"; "std::sort"]) ∧
  (∀ i, 1 ≤ i ≤ 1 →
    loaded world_two_records i
      [mkSoldier "B" "x" "U2" 100; mkSoldier "A" "y" "U1" 200]) ∧
  ∃ w', get_time example_clock id 0 1 "quick_sort" world_two_records
        = Ret (([inject_Z 2], [Qmake 1000 1000000000]), w') ∧
    files w' !! dataset_out 1
    = Some ("B,x,U2,100" +:+ endl +:+ "A,y,U1,200" +:+ endl).
Proof.
  assert ("quick_sort" ∉
          ["insertion_sort"; "shaker_sort"; "merge_sort"; "std::sort"]) as H1.
  { apply (bool_decide_unpack _). by vm_compute. }
  assert (∀ i, 1 ≤ i ≤ 1 →
    loaded world_two_records i
      [mkSoldier "B" "x" "U2" 100; mkSoldier "A" "y" "U1" 200]) as H2.
  { intros i Hi. assert (i = 1) as -> by lia.
    exists ("B,x,U2,100" +:+ endl +:+ "A,y,U1,200" +:+ endl).
    split; by vm_compute. }
  split_and!; [exact H1|exact H2|].
  destruct (unknown_selector example_clock id 0 1 "quick_sort"
              world_two_records
              (λ _, [mkSoldier "B" "x" "U2" 100; mkSoldier "A" "y" "U1" 200])
              H1 H2 (λ _ _, eq_refl))
    as (_ & w' & Hrun & Hfiles & _).
  exists w'. split; [exact Hrun|]. apply (Hfiles 1). lia.
Defined.

(** C9 on the data set of two records: [insertion_sort] returns the size 2
    and one time. *)
Example get_time_series_two_records :
  ∃ y w', get_time example_clock id 0 1 "insertion_sort" world_two_records
          = Ret (([inject_Z 2], y), w') ∧
    length y = 1%nat ∧ Forall (Qle 0) y.
Proof.
  apply (get_time_series example_clock id 0 1 "insertion_sort"
           world_two_records
           (λ _, [mkSoldier "B" "x" "U2" 100; mkSoldier "A" "y" "U1" 200])).
  - intros k. unfold example_clock. lia.
  - done.
  - intros i Hi. assert (i = 1) as -> by lia. split.
    + exists ("B,x,U2,100" +:+ endl +:+ "A,y,U1,200" +:+ endl).
      split; by vm_compute.
    + eexists. apply sort_data_insertion_sort.
Qed.

(** * Further properties of the code *)

(** ** The four operators of the record (lines 37-70) *)

(** X1.  The four operators agree: [a > b] is [b < a], [a <= b] is the
    negation of [b < a], [a >= b] is the negation of [a < b] and is
    [b <= a]. *)
Theorem Soldier_operators_consistent (a b : Soldier) :
  Soldier_gt a b = Soldier_lt b a ∧
  Soldier_le a b = negb (Soldier_lt b a) ∧
  Soldier_ge a b = negb (Soldier_lt a b) ∧
  Soldier_ge a b = Soldier_le b a.
Proof.
  unfold Soldier_gt, Soldier_lt, Soldier_le, Soldier_ge.
  rewrite (cmp_antisym (tie a) (tie b)).
  by destruct (tuple_compare (tie a) (tie b)).
Qed.

(** X2.  Of [a < b], "same unit, name and salary" and [a > b], exactly one
    holds; the job of a record has no part in it. *)
Theorem Soldier_trichotomy (a b : Soldier) :
  (Soldier_lt a b, bool_decide (tie a = tie b), Soldier_gt a b)
  ∈ [(true, false, false); (false, true, false); (false, false, true)].
Proof.
  unfold Soldier_lt, Soldier_gt.
  destruct (tuple_compare (tie a) (tie b)) eqn:Hc.
  - apply cmp_eq in Hc. rewrite bool_decide_true by done.
    right. left.
  - rewrite bool_decide_false; [left|].
    intros Heq. rewrite Heq, cmp_refl in Hc. done.
  - rewrite bool_decide_false; [do 2 right; left|].
    intros Heq. rewrite Heq, cmp_refl in Hc. done.
Qed.

(** X3.  [operator<] is transitive. *)
Theorem Soldier_lt_trans (a b c : Soldier) :
  Soldier_lt a b = true → Soldier_lt b c = true → Soldier_lt a c = true.
Proof.
  unfold Soldier_lt. intros Hab Hbc.
  destruct (tuple_compare (tie a) (tie b)) eqn:Hab'; try done.
  destruct (tuple_compare (tie b) (tie c)) eqn:Hbc'; try done.
  by rewrite (cmp_trans _ _ _ Hab' Hbc').
Qed.

Lemma Soldier_lt_trans_witness :
  Soldier_lt (mkSoldier "A" "x" "U1" 1) (mkSoldier "B" "x" "U1" 0) = true ∧
  Soldier_lt (mkSoldier "B" "x" "U1" 0) (mkSoldier "A" "x" "U2" 0) = true ∧
  Soldier_lt (mkSoldier "A" "x" "U1" 1) (mkSoldier "A" "x" "U2" 0) = true.
Proof.
  split_and!; [reflexivity..|].
  apply (Soldier_lt_trans _ (mkSoldier "B" "x" "U1" 0)); reflexivity.
Defined.

(** ** The sorting templates with any comparator (lines 153-265) *)

Section AnyComparator.
Context {A : Type} (comp : A → A → bool).



(** The number of calls of the comparator in the outer loop of
    [insertion_sort]. *)
Lemma insertion_outer_count suf : ∀ pre c i,
  i = Z.of_nat (length pre) →
  ∃ c', for_up (length suf) i (insertion_body comp 0) tt (Vec (pre ++ suf) c)
        = Ret (tt, Vec (insertion_passes comp pre suf) c') ∧
    (2 * c' + length suf
     = 2 * c + length suf * (2 * length pre + length suf))%nat.
Proof.
  induction suf as [|t suf IH]; intros pre c i Hi.
  - exists c. simpl. rewrite (right_id_L [] (++)). split; [done|lia].
  - cbn [length]. rewrite for_up_S.
    mstep insertion_body_run.
    cbn [insertion_passes].
    destruct (IH (insertion_pass comp t t (reverse pre)) (c + length pre)%nat
                (i + 1)) as (c' & Hrun & Hc').
    { rewrite length_insertion_pass, length_reverse. lia. }
    exists c'. split; [done|].
    rewrite length_insertion_pass, length_reverse in Hc'. nia.
Qed.

(** X11.  The inner loop of [insertion_sort] has no exit: on a vector of
    [n] elements, sorted or not, the comparator is called [n (n - 1) / 2]
    times. *)
Theorem insertion_sort_comparisons (l : list A) :
  ∃ out c, insertion_sort comp 0 (Z.of_nat (length l)) (Vec l 0)
           = Ret (tt, Vec out c) ∧
    (2 * c = length l * (length l - 1))%nat.
Proof.
  unfold insertion_sort, for_lt. destruct l as [|x l].
  - by exists [], 0%nat.
  - replace (Z.to_nat _) with (length l) by (cbn [length]; lia).
    destruct (insertion_outer_count l [x] 0%nat (0 + 1) eq_refl)
      as (c & Hrun & Hc).
    eexists _, c. split; [exact Hrun|]. cbn [length] in *. nia.
Qed.

End AnyComparator.

(** ** The sorting templates with a strict weak ordering *)

Section StrictWeakOrdering.
Context {A : Type} (comp : A → A → bool).
Implicit Types (l r pre post : list A).

Hypothesis comp_asym : ∀ x y, comp x y = true → comp y x = false.
Hypothesis comp_negtrans :
  ∀ x y z, comp x y = false → comp y z = false → comp x z = false.

Lemma Sorted_le_StronglySorted l :
  Sorted (le comp) l → StronglySorted (le comp) l.
Proof.
  apply Sorted_StronglySorted. intros x y z. by apply le_trans.
Qed.

(** X5.  With a comparator that is a strict weak ordering,
    [insertion_sort] and [shaker_sort] leave every vector that has storage
    non-decreasing for that comparator, with the elements it had. *)
Theorem insertion_shaker_sort_any_order l :
  let last := Z.of_nat (length l) in
  (∃ out c, insertion_sort comp 0 last (Vec l 0) = Ret (tt, Vec out c) ∧
     Sorted (le comp) out ∧ out ≡ₚ l) ∧
  (∃ out c, shaker_sort comp 0 last (Vec l 0) = Ret (tt, Vec out c) ∧
     Sorted (le comp) out ∧ out ≡ₚ l).
Proof.
  intros last. split.
  - destruct (insertion_sort_run comp l 0) as [c Hc].
    eexists _, c. split_and!; [exact Hc| |apply insertion_sort_list_perm].
    by apply StronglySorted_Sorted, insertion_sort_list_sorted.
  - destruct (shaker_sort_run comp l 0) as [c Hc].
    eexists _, c. split_and!; [exact Hc| |apply shaker_sort_list_perm].
    by apply StronglySorted_Sorted, shaker_sort_list_sorted.
Qed.

(** X6.  [merge], given two adjacent ranges that are each non-decreasing,
    leaves their elements in the combined range, non-decreasing, and does
    not touch the vector before and after the combined range. *)
Theorem merge_sorted_ranges l r pre post c :
  Sorted (le comp) l → Sorted (le comp) r →
  let l_first := Z.of_nat (length pre) in
  let l_last := l_first + Z.of_nat (length l) in
  let r_last := l_last + Z.of_nat (length r) in
  ∃ out c', merge comp l_first l_last l_last r_last
              (Vec (pre ++ l ++ r ++ post) c)
            = Ret (tt, Vec (pre ++ out ++ post) c') ∧
    Sorted (le comp) out ∧ out ≡ₚ l ++ r.
Proof.
  intros Hl%Sorted_le_StronglySorted Hr%Sorted_le_StronglySorted
    l_first l_last r_last.
  destruct (merge_run comp l r pre post c l_first l_last r_last)
    as [c' Hc']; [done..|].
  exists (merge_lists comp l r), c'.
  split_and!; [done| |apply merge_lists_perm].
  by apply StronglySorted_Sorted, merge_lists_sorted.
Qed.

(** X7.  [merge_sort] on a range of a vector that is not empty, with a
    recursion as deep as the range is long, leaves the elements of the
    range in the range, non-decreasing, and does not touch the vector
    before and after the range. *)
Theorem merge_sort_subrange x l pre post c :
  let first := Z.of_nat (length pre) in
  let last := first + Z.of_nat (length (x :: l)) in
  ∃ out c', merge_sort comp (length (x :: l)) first last
              (Vec (pre ++ (x :: l) ++ post) c)
            = Ret (tt, Vec (pre ++ out ++ post) c') ∧
    Sorted (le comp) out ∧ out ≡ₚ x :: l.
Proof.
  intros first last.
  destruct (merge_sort_list_is_Some comp (length (x :: l)) (x :: l))
    as [out Hout]; [simpl; lia|].
  pose proof (merge_sort_run comp (length (x :: l)) (x :: l) pre post c
                first last eq_refl eq_refl) as Hrun.
  rewrite Hout in Hrun. destruct Hrun as [c' Hrun].
  apply merge_sort_list_sorted in Hout as [Hs Hp]; [|done..].
  exists out, c'. split_and!; [done| |done]. by apply StronglySorted_Sorted.
Qed.

(** The elements that compare equal to [z] come out of [merge] with those
    of the right range first. *)
Lemma merge_lists_filter z l : ∀ r,
  StronglySorted (le comp) r →
  filter (equiv_keys comp z) (merge_lists comp l r)
  = filter (equiv_keys comp z) r ++ filter (equiv_keys comp z) l.
Proof.
  induction l as [|x l IHl]; intros r Hr.
  { destruct r; [done|]. cbn [merge_lists].
    by rewrite filter_nil, (right_id_L [] (++)). }
  induction r as [|y r IHr]; [done|].
  rewrite merge_lists_cons. destruct (comp x y) eqn:Hxy.
  - rewrite (filter_cons _ x), IHl by done.
    rewrite (filter_cons _ x (l)).
    destruct (decide (equiv_keys comp z x)) as [Hzx|]; [|done].
    assert (filter (equiv_keys comp z) (y :: r) = []) as ->; [|done].
    apply filter_none. intros w Hw Hzw.
    apply (lt_not_equiv comp comp_negtrans w x z); [|done..].
    destruct (comp x w) eqn:Hxw; [done|].
    assert (comp w y = false) as Hwy.
    { apply elem_of_cons in Hw as [->|Hw]; [by apply comp_irrefl|].
      apply StronglySorted_cons in Hr as [Hyr _].
      rewrite Forall_forall in Hyr. by apply Hyr. }
    by rewrite (comp_negtrans x w y) in Hxy.
  - apply StronglySorted_cons in Hr as [_ Hr].
    by rewrite !(filter_cons _ y), IHr by done; case_decide.
Qed.

Lemma merge_sort_list_reverses z fuel : ∀ l out,
  merge_sort_list comp fuel l = Some out →
  filter (equiv_keys comp z) out = reverse (filter (equiv_keys comp z) l).
Proof.
  induction fuel as [|fuel IH]; intros l out; [done|].
  cbn [merge_sort_list]. case_decide as Hlen.
  { intros [= <-]. destruct l as [|x [|??]]; try done.
    rewrite filter_cons, filter_nil. by case_decide. }
  destruct (merge_sort_list comp fuel (take _ l)) as [l1|] eqn:H1; [|done].
  destruct (merge_sort_list comp fuel (drop _ l)) as [l2|] eqn:H2; [|done].
  intros [= <-].
  rewrite merge_lists_filter
    by (by eapply merge_sort_list_sorted in H2 as [??]).
  rewrite (IH _ _ H1), (IH _ _ H2), <- reverse_app, <- filter_app.
  by rewrite take_drop.
Qed.

(** A non-decreasing list is determined by the elements of each class of
    equal keys, in their order. *)
Lemma sorted_stable_unique l1 : ∀ l2,
  StronglySorted (le comp) l1 → StronglySorted (le comp) l2 →
  stable comp l1 l2 → l1 = l2.
Proof.
  assert (∀ x, equiv_keys comp x x) as Hrefl
    by (intros x; split; by apply comp_irrefl).
  induction l1 as [|x l1 IH]; intros [|y l2] Hs1 Hs2 Hst.
  - done.
  - specialize (Hst y). by rewrite filter_cons_True in Hst.
  - specialize (Hst x). by rewrite (filter_cons_True _ x l1) in Hst.
  - apply StronglySorted_cons in Hs1 as [Hx1 Hs1].
    apply StronglySorted_cons in Hs2 as [Hy2 Hs2].
    rewrite Forall_forall in Hx1. rewrite Forall_forall in Hy2.
    assert (le comp y x) as Hyx.
    { pose proof (Hst x) as Hx. rewrite (filter_cons_True _ x l1) in Hx by done.
      assert (x ∈ filter (equiv_keys comp x) (y :: l2)) as Hin
        by (rewrite Hx; left).
      apply list_elem_of_filter in Hin as [_ [->|Hin]%elem_of_cons];
        [by apply le_refl|by apply Hy2]. }
    assert (le comp x y) as Hxy.
    { pose proof (Hst y) as Hy. rewrite (filter_cons_True _ y l2) in Hy by done.
      assert (y ∈ filter (equiv_keys comp y) (x :: l1)) as Hin
        by (rewrite <- Hy; left).
      apply list_elem_of_filter in Hin as [_ [->|Hin]%elem_of_cons];
        [by apply le_refl|by apply Hx1]. }
    assert (x = y) as <-.
    { pose proof (Hst x) as Hx.
      rewrite (filter_cons_True _ x l1), (filter_cons_True _ y l2) in Hx
        by done.
      congruence. }
    f_equal. apply IH; [done..|]. intros z. specialize (Hst z).
    rewrite !(filter_cons _ x) in Hst. case_decide; congruence.
Qed.

Lemma insertion_shaker_lists_agree l :
  insertion_sort_list comp l = shaker_sort_list comp l.
Proof.
  apply sorted_stable_unique.
  - by apply insertion_sort_list_sorted.
  - by apply shaker_sort_list_sorted.
  - intros z. rewrite (shaker_sort_list_stable comp comp_negtrans l z).
    by rewrite (insertion_sort_list_stable comp comp_asym comp_negtrans l z).
Qed.

Lemma insertion_sort_list_sorted_input l :
  StronglySorted (le comp) l → insertion_sort_list comp l = l.
Proof.
  intros Hl. apply sorted_stable_unique; [|done|].
  - by apply insertion_sort_list_sorted.
  - intros z.
    by rewrite (insertion_sort_list_stable comp comp_asym comp_negtrans l z).
Qed.

(** On a non-decreasing range the forward pass of [shaker_sort] swaps
    nothing. *)
Lemma forward_pass_sorted l : ∀ x b,
  StronglySorted (le comp) (x :: l) → forward_pass comp x l b = (x :: l, b).
Proof.
  induction l as [|y l IH]; intros x b Hs; [done|].
  apply StronglySorted_cons in Hs as [Hx Hs].
  apply Forall_cons in Hx as [Hxy _]. simpl. rewrite Hxy.
  by rewrite IH.
Qed.

Lemma shaker_sort_sorted_run l :
  StronglySorted (le comp) l →
  shaker_sort comp 0 (Z.of_nat (length l)) (Vec l 0)
  = Ret (tt, Vec l (length l - 1)).
Proof.
  intros Hl. unfold shaker_sort. destruct l as [|x l]; [done|].
  erewrite bind_Ret by reflexivity. cbv zeta.
  replace (Z.to_nat (Z.of_nat (length (x :: l)) - 1 - 0 + 1))
    with (S (length l)) by (cbn [length]; lia).
  cbn [length shaker_loop]. rewrite bool_decide_true by lia.
  unfold for_lt.
  replace (Z.to_nat (Z.of_nat (S (length l)) - 1 - 0)) with (length l) by lia.
  pose proof (forward_pass_run comp l x [] [] 0 0 true eq_refl) as Hrun.
  rewrite forward_pass_sorted in Hrun by done.
  simpl in Hrun. rewrite (right_id_L [] (++)) in Hrun.
  erewrite bind_Ret by exact Hrun. simpl. by rewrite Nat.sub_0_r.
Qed.

End StrictWeakOrdering.

(** ** The sorting templates on records, further *)

Lemma Soldier_gt_asym a b : Soldier_gt a b = true → Soldier_gt b a = false.
Proof.
  unfold Soldier_gt. rewrite (cmp_antisym (tie a) (tie b)).
  by destruct (tuple_compare (tie a) (tie b)).
Qed.

Lemma Soldier_gt_negtrans a b c :
  Soldier_gt a b = false → Soldier_gt b c = false → Soldier_gt a c = false.
Proof.
  assert (∀ x y, Soldier_gt x y = less_Soldier y x) as Hgt.
  { intros x y. unfold Soldier_gt, less_Soldier, Soldier_lt.
    rewrite (cmp_antisym (tie x) (tie y)).
    by destruct (tuple_compare (tie x) (tie y)). }
  rewrite !Hgt. intros Hab Hbc. by apply (less_Soldier_negtrans c b a).
Qed.

(** [insertion_sort] with [operator>] as the comparator: the vector comes
    out in descending order. *)
Lemma insertion_shaker_sort_any_order_witness :
  (∀ a b, Soldier_gt a b = true → Soldier_gt b a = false) ∧
  (∀ a b c, Soldier_gt a b = false → Soldier_gt b c = false →
    Soldier_gt a c = false) ∧
  ∃ out c, insertion_sort Soldier_gt 0 2
             (Vec [clerk; mkSoldier "B" "x" "U2" 5] 0)
           = Ret (tt, Vec out c) ∧
    Sorted (le Soldier_gt) out.
Proof.
  split_and!; [exact Soldier_gt_asym|exact Soldier_gt_negtrans|].
  destruct (insertion_shaker_sort_any_order Soldier_gt Soldier_gt_asym
              Soldier_gt_negtrans [clerk; mkSoldier "B" "x" "U2" 5])
    as [(out & c & Hrun & Hs & _) _].
  by exists out, c.
Defined.

Lemma merge_sorted_ranges_witness :
  Sorted (le less_Soldier) [clerk; mkSoldier "B" "x" "U2" 5] ∧
  Sorted (le less_Soldier) [driver] ∧
  ∃ out c, merge less_Soldier 1 3 3 4
             (Vec ([driver] ++ [clerk; mkSoldier "B" "x" "U2" 5] ++ [driver]
                   ++ [clerk]) 0)
           = Ret (tt, Vec ([driver] ++ out ++ [clerk]) c) ∧
    Sorted (le less_Soldier) out.
Proof.
  assert (Sorted (le less_Soldier) [clerk; mkSoldier "B" "x" "U2" 5]) as H1
    by (repeat (constructor; try reflexivity)).
  assert (Sorted (le less_Soldier) [driver]) as H2
    by (repeat (constructor; try reflexivity)).
  split_and!; [exact H1|exact H2|].
  destruct (merge_sorted_ranges less_Soldier less_Soldier_asym
              less_Soldier_negtrans _ _ [driver] [clerk] 0%nat H1 H2)
    as (out & c & Hrun & Hs & _).
  by exists out, c.
Defined.

Lemma merge_sort_subrange_witness :
  (∀ a b, less_Soldier a b = true → less_Soldier b a = false) ∧
  ∃ out c, merge_sort less_Soldier 2 1 3
             (Vec ([driver] ++ [mkSoldier "B" "x" "U2" 5; clerk] ++ [clerk]) 0)
           = Ret (tt, Vec ([driver] ++ out ++ [clerk]) c) ∧
    Sorted (le less_Soldier) out.
Proof.
  split; [exact less_Soldier_asym|].
  destruct (merge_sort_subrange less_Soldier less_Soldier_asym
              less_Soldier_negtrans (mkSoldier "B" "x" "U2" 5) [clerk]
              [driver] [clerk] 0%nat)
    as (out & c & Hrun & Hs & _).
  by exists out, c.
Defined.

(** X8.  [merge_sort] returns the records whose keys compare equal in the
    reverse of the order they had. *)
Theorem merge_sort_reverses_ties (x : Soldier) (l : list Soldier) :
  let last := Z.of_nat (length (x :: l)) in
  ∃ out c, merge_sort less_Soldier (length (x :: l)) 0 last (Vec (x :: l) 0)
           = Ret (tt, Vec out c) ∧
    ∀ z, filter (equiv_keys less_Soldier z) out
         = reverse (filter (equiv_keys less_Soldier z) (x :: l)).
Proof.
  intros last.
  destruct (merge_sort_nonempty less_Soldier (x :: l) (length (x :: l)) 0)
    as (out & c & Hrun & Hout); [simpl; lia|].
  exists out, c. split; [done|]. intros z.
  by eapply (merge_sort_list_reverses less_Soldier less_Soldier_asym
               less_Soldier_negtrans).
Qed.

(** X9.  [insertion_sort] and [shaker_sort] leave the same vector,
    whatever vector of records with storage they are run on.  They differ
    on the empty vector without storage, where only [insertion_sort]
    returns. *)
Theorem insertion_shaker_agree (l : list Soldier) :
  let last := Z.of_nat (length l) in
  (∃ out c1 c2,
    insertion_sort less_Soldier 0 last (Vec l 0) = Ret (tt, Vec out c1) ∧
    shaker_sort less_Soldier 0 last (Vec l 0) = Ret (tt, Vec out c2)) ∧
  insertion_sort less_Soldier 0 0 (NoStorage 0) = Ret (tt, NoStorage 0) ∧
  shaker_sort less_Soldier 0 0 (NoStorage 0) = Undefined.
Proof.
  intros last. split_and!; [|reflexivity|apply shaker_sort_no_storage].
  destruct (insertion_sort_run less_Soldier l 0) as [c1 H1].
  destruct (shaker_sort_run less_Soldier l 0) as [c2 H2].
  exists (insertion_sort_list less_Soldier l), c1, c2. split; [done|].
  by rewrite (insertion_shaker_lists_agree less_Soldier less_Soldier_asym
                less_Soldier_negtrans).
Qed.

(** X10.  On a vector of records that has storage and is non-decreasing
    already, [insertion_sort] and [shaker_sort] leave every record in
    place, and
    [shaker_sort] stops after one forward pass: it calls the comparator
    once for each pair of neighbours. *)
Theorem sorted_input_unchanged (l : list Soldier) :
  Sorted (le less_Soldier) l →
  let last := Z.of_nat (length l) in
  (∃ c, insertion_sort less_Soldier 0 last (Vec l 0) = Ret (tt, Vec l c)) ∧
  shaker_sort less_Soldier 0 last (Vec l 0) = Ret (tt, Vec l (length l - 1)).
Proof.
  intros Hl last.
  apply (Sorted_le_StronglySorted less_Soldier less_Soldier_negtrans) in Hl.
  split.
  - destruct (insertion_sort_run less_Soldier l 0) as [c Hc]. exists c.
    by rewrite (insertion_sort_list_sorted_input less_Soldier
                  less_Soldier_asym less_Soldier_negtrans l Hl) in Hc.
  - by apply (shaker_sort_sorted_run less_Soldier).
Qed.

Lemma sorted_input_unchanged_witness :
  Sorted (le less_Soldier) [clerk; driver; mkSoldier "B" "x" "U2" 5] ∧
  shaker_sort less_Soldier 0 3
    (Vec [clerk; driver; mkSoldier "B" "x" "U2" 5] 0)
  = Ret (tt, Vec [clerk; driver; mkSoldier "B" "x" "U2" 5] 2).
Proof.
  assert (Sorted (le less_Soldier)
            [clerk; driver; mkSoldier "B" "x" "U2" 5]) as H
    by (repeat (constructor; try reflexivity)).
  split; [exact H|].
  exact (proj2 (sorted_input_unchanged _ H)).
Defined.

(** ** [split] (lines 83-91) *)

Lemma join_snoc del f fields :
  fields ≠ [] →
  join del (fields ++ [f]) = join del fields +:+ String del f.
Proof.
  induction fields as [|g fields IH]; [done|]. intros _.
  destruct fields as [|h fields]; [done|].
  change ((g :: h :: fields) ++ [f]) with (g :: (h :: fields) ++ [f]).
  cbn [app]. rewrite !join_cons. change (h :: fields ++ [f])
    with ((h :: fields) ++ [f]).
  rewrite IH by done. by rewrite string_app_assoc, string_app_cons.
Qed.

(** X12.  No field that [split] returns holds the delimiter.  Every text
    is a list of fields without the delimiter, written with the delimiter
    between them, and [split] returns these fields, but without the last
    one when that is empty: the empty field after a delimiter at the end
    of the text is lost, and the empty text has no field at all. *)
Theorem split_fields (str : string) (del : ascii) :
  Forall (λ f, del ∉ list_ascii_of_string f) (split str del) ∧
  (∃ fields, Forall (λ f, del ∉ list_ascii_of_string f) fields ∧
     str = join del fields) ∧
  ∀ fields, Forall (λ f, del ∉ list_ascii_of_string f) fields →
    str = join del fields → split str del = drop_empty_last fields.
Proof.
  destruct (split_loop_spec del (String.length str) str [])
    as (fs & Hrun & Hfs & Hnil & Hjoin); [done|].
  split_and!.
  - unfold split. by rewrite Hrun.
  - destruct Hjoin as [Hjoin|Hjoin]; [by exists fs|].
    destruct fs as [|f fs].
    { exists []. split; [done|]. by apply Hnil. }
    exists ((f :: fs) ++ [EmptyString]). split.
    + apply Forall_app. split; [done|]. constructor; [|done].
      apply not_elem_of_nil.
    + by rewrite join_snoc.
  - intros fields Hf ->. by apply split_join.
Qed.

Lemma split_fields_witness :
  Forall (λ f, ("," : ascii) ∉ list_ascii_of_string f)
    ["a"; "b"; "c"; EmptyString] ∧
  "a,b,c," = join "," ["a"; "b"; "c"; EmptyString] ∧
  split "a,b,c," "," = ["a"; "b"; "c"].
Proof.
  assert (Forall (λ f, ("," : ascii) ∉ list_ascii_of_string f)
            ["a"; "b"; "c"; EmptyString]) as H.
  { repeat constructor; apply (bool_decide_unpack _); by vm_compute. }
  split_and!; [exact H|reflexivity|].
  exact (proj2 (proj2 (split_fields "a,b,c," ",")) _ H eq_refl).
Defined.

(** ** Reading back what [write_csv] wrote (lines 98-132) *)

(** X13.  Records whose texts hold no comma and no line break, and whose
    salaries are [int]s, are read back by [read_csv] as [write_csv] wrote
    them: the same records in the same order. *)
Theorem write_read_round_trip (filename : string) (data : list Soldier)
    (w : world) :
  writable w filename = true →
  Forall csv_safe data →
  (_ ← write_csv filename data; read_csv filename) w
  = Ret (data, set_files (<[filename := csv_lines data]> (files w)) w).
Proof.
  intros Hw Hsafe. unfold write_csv, read_csv, mbind, M_bind, get, put, lift.
  simpl. rewrite Hw. simpl. rewrite lookup_insert_eq.
  by rewrite (read_csv_loop_written data _ []).
Qed.

Lemma write_read_round_trip_witness :
  writable world_no_dataset "data/out/insertion/dataset_1.csv" = true ∧
  Forall csv_safe [clerk; mkSoldier "B" "x" "U2" (-5)] ∧
  (_ ← write_csv "data/out/insertion/dataset_1.csv"
         [clerk; mkSoldier "B" "x" "U2" (-5)];
   read_csv "data/out/insertion/dataset_1.csv") world_no_dataset
  = Ret ([clerk; mkSoldier "B" "x" "U2" (-5)],
         set_files
           (<["data/out/insertion/dataset_1.csv" :=
                csv_lines [clerk; mkSoldier "B" "x" "U2" (-5)]]>
              (files world_no_dataset)) world_no_dataset).
Proof.
  assert (Forall csv_safe [clerk; mkSoldier "B" "x" "U2" (-5)]) as H.
  { repeat constructor; simpl;
      try (apply (bool_decide_unpack _); by vm_compute);
      unfold INT_MIN, INT_MAX; lia. }
  split_and!; [reflexivity|exact H|].
  exact (write_read_round_trip _ _ world_no_dataset eq_refl H).
Defined.

(** ** What a run of [get_time] touches (lines 274-304) *)

Section HarnessFrame.
Variable steady_clock : nat → Z.
Variable std_sort : list Soldier → list Soldier.

(** One iteration that returns has appended one size and one time, read
    the clock twice, printed one report, and written to no file other than
    the output file of its data set. *)
Lemma get_time_body_frame fuel algo i x y w x' y' w' :
  get_time_body steady_clock std_sort fuel algo i (x, y) w
  = Ret ((x', y'), w') →
  length x' = S (length x) ∧ length y' = S (length y) ∧
  writable w' = writable w ∧
  clock_reads w' = S (S (clock_reads w)) ∧
  (∃ r, cout w' = cout w ++ [r] ∧ report_algo r = algo) ∧
  cerr w `prefix_of` cerr w' ∧
  ∀ p, p ≠ dataset_out i → files w' !! p = files w !! p.
Proof.
  unfold get_time_body, read_csv, write_csv, now, cout_print, cerr_print,
    throw, lift, mbind, M_bind, get, put, mret, M_ret.
  intros H. simpl in H.
  repeat (case_match; simplify_eq/=; try done).
  all: rewrite ?length_app; simpl.
  all: split_and!; try done; try lia; try (by eexists).
  all: try (by apply prefix_app_r).
  all: try (intros p Hp; by rewrite ?lookup_insert_ne).
  rewrite <- (assoc_L (++)). apply prefix_app_r. done.
Qed.

Lemma get_time_loop_frame fuel algo n : ∀ i x y w x' y' w',
  for_up n i (get_time_body steady_clock std_sort fuel algo) (x, y) w
  = Ret ((x', y'), w') →
  length x' = (length x + n)%nat ∧ length y' = (length y + n)%nat ∧
  writable w' = writable w ∧
  clock_reads w' = (clock_reads w + 2 * n)%nat ∧
  (∃ r, cout w' = cout w ++ r ∧ length r = n ∧
        Forall (λ r, report_algo r = algo) r) ∧
  cerr w `prefix_of` cerr w' ∧
  ∀ p, (∀ k, i ≤ k < i + Z.of_nat n → p ≠ dataset_out k) →
       files w' !! p = files w !! p.
Proof.
  induction n as [|n IH]; intros i x y w x' y' w' H.
  { simpl in H. injection H as -> -> ->.
    split_and!; try done; try lia.
    exists []. by rewrite (right_id_L [] (++)). }
  rewrite for_up_S in H. unfold mbind, M_bind in H.
  destruct (get_time_body _ _ _ _ i (x, y) w) as [[[x1 y1] w1]| | |] eqn:Hb;
    try done.
  apply get_time_body_frame in Hb
    as (Hx1 & Hy1 & Hw1 & Hc1 & (r1 & Ho1 & Hr1) & He1 & Hf1).
  apply IH in H as (Hx & Hy & Hw & Hc & (r & Ho & Hl & Hr) & He & Hf).
  split_and!; try lia; try congruence.
  - exists (r1 :: r). rewrite Ho, Ho1, <- (assoc_L (++)).
    split_and!; [done|simpl; lia|by constructor].
  - by etrans.
  - intros p Hp. rewrite Hf by (intros k Hk; apply Hp; lia).
    apply Hf1, Hp. lia.
Qed.

(** X14.  A run of [get_time] that returns gives two series of [j]
    elements, has read the clock [2 * j] times and printed [j] reports
    that name its selector, has only appended to the error stream, and has
    left every file alone that is not the output file of one of the data
    sets 1, ..., [j]; the data sets themselves in particular. *)
Theorem get_time_frame fuel j algo w x y w' :
  get_time steady_clock std_sort fuel j algo w = Ret ((x, y), w') →
  length x = Z.to_nat j ∧ length y = Z.to_nat j ∧
  writable w' = writable w ∧
  clock_reads w' = (clock_reads w + 2 * Z.to_nat j)%nat ∧
  (∃ r, cout w' = cout w ++ r ∧ length r = Z.to_nat j ∧
        Forall (λ r, report_algo r = algo) r) ∧
  cerr w `prefix_of` cerr w' ∧
  (∀ p, (∀ k, 1 ≤ k ≤ j → p ≠ dataset_out k) →
        files w' !! p = files w !! p) ∧
  ∀ k, files w' !! dataset_in k = files w !! dataset_in k.
Proof.
  intros H. apply get_time_loop_frame in H
    as (Hx & Hy & Hw & Hc & Ho & He & Hf).
  split_and!; try done.
  - intros p Hp. apply Hf. intros k Hk. apply Hp. lia.
  - intros k. apply Hf. intros k' _. apply dataset_in_out.
Qed.

(** The exception that [read_csv] raises on data set [k] leaves
    [get_time]: the iterations before it have run, and no series is
    returned. *)
Lemma get_time_loop_exception fuel algo (data : Z → list Soldier) content e k
    n : ∀ i x y w,
  i ≤ k < i + Z.of_nat n → 1 ≤ i →
  length y = Z.to_nat (i - 1) →
  (∀ l, i ≤ l < k → loaded w l (data l) ∧
     ∃ sd, sort_data std_sort fuel algo (data l) = Ret sd) →
  files w !! dataset_in k = Some content →
  read_csv_loop (String.length content) content [] = Throw e →
  for_up n i (get_time_body steady_clock std_sort fuel algo) (x, y) w
  = Throw e.
Proof.
  induction n as [|n IH]; intros i x y w Hk Hi Hy Hdata Hf Hr; [lia|].
  rewrite for_up_S. destruct (decide (i = k)) as [->|Hne].
  - unfold mbind at 1, M_bind.
    assert (get_time_body steady_clock std_sort fuel algo k (x, y) w
            = Throw e) as ->; [|done].
    unfold get_time_body, read_csv, mbind, M_bind, get, lift. simpl.
    by rewrite Hf, Hr.
  - destruct (Hdata i) as [Hl [sd Hs]]; [lia|].
    erewrite bind_Ret by (by eapply get_time_body_run).
    apply IH; [lia|lia|rewrite length_app; simpl; lia| | |done].
    + intros l Hl'. destruct (Hdata l) as [Hl1 Hl2]; [lia|].
      split; [by apply loaded_world_after|done].
    + simpl. destruct (writable w (dataset_out i)); [|done].
      rewrite lookup_insert_ne; [done|]. intros H.
      by apply (dataset_in_out k i).
Qed.

(** X15.  When the data sets before [k] are read and sorted and
    [read_csv] raises an exception on data set [k], [1 ≤ k ≤ j], the
    exception leaves [get_time]: the run returns no series, whatever the
    later data sets hold. *)
Theorem get_time_exception fuel j algo w (data : Z → list Soldier) k
    content e :
  1 ≤ k ≤ j →
  (∀ l, 1 ≤ l < k → loaded w l (data l) ∧
     ∃ sd, sort_data std_sort fuel algo (data l) = Ret sd) →
  files w !! dataset_in k = Some content →
  read_csv_loop (String.length content) content [] = Throw e →
  get_time steady_clock std_sort fuel j algo w = Throw e.
Proof.
  intros Hk Hdata Hf Hr. unfold get_time.
  by apply (get_time_loop_exception fuel algo data content e k (Z.to_nat j)
              1 [] [] w); [lia|lia|..].
Qed.

End HarnessFrame.

Lemma get_time_frame_witness :
  ∃ x y w',
    get_time example_clock id 0 1 "insertion_sort" world_two_records
    = Ret ((x, y), w') ∧
    length x = 1%nat ∧ length y = 1%nat ∧ clock_reads w' = 2%nat ∧
    files w' !! dataset_in 1 = files world_two_records !! dataset_in 1.
Proof.
  assert (∀ k, 1 ≤ k < 1 + Z.of_nat 1 →
    loaded world_two_records k
      [mkSoldier "B" "x" "U2" 100; mkSoldier "A" "y" "U1" 200] ∧
    sort_data id 0 "insertion_sort"
      [mkSoldier "B" "x" "U2" 100; mkSoldier "A" "y" "U1" 200]
    = Ret [mkSoldier "A" "y" "U1" 200; mkSoldier "B" "x" "U2" 100]) as Hk.
  { intros k Hk. assert (k = 1) as -> by lia. split; [|by vm_compute].
    exists ("B,x,U2,100" +:+ endl +:+ "A,y,U1,200" +:+ endl).
    split; by vm_compute. }
  pose proof (get_time_run example_clock id 0 "insertion_sort" _ _ 1 1 [] []
                world_two_records Hk eq_refl ltac:(done)) as Hrun.
  destruct (get_time_frame example_clock id 0 1 "insertion_sort"
              world_two_records _ _ _ Hrun)
    as (Hx & Hy & _ & Hc & _ & _ & _ & Hf).
  eexists _, _, _. split; [exact Hrun|].
  split_and!; [exact Hx|exact Hy|exact Hc|exact (Hf 1)].
Defined.

Lemma get_time_exception_witness :
  1 ≤ 2 ≤ 2 ∧
  (∀ l, 1 ≤ l < 2 →
     loaded world_second_bad l
       [mkSoldier "B" "x" "U2" 100; mkSoldier "A" "y" "U1" 200] ∧
     ∃ sd, sort_data id 0 "insertion_sort"
             [mkSoldier "B" "x" "U2" 100; mkSoldier "A" "y" "U1" 200]
           = Ret sd) ∧
  files world_second_bad !! dataset_in 2 = Some ("a,b,c,abc" +:+ endl) ∧
  read_csv_loop (String.length ("a,b,c,abc" +:+ endl)) ("a,b,c,abc" +:+ endl)
    [] = Throw invalid_argument ∧
  get_time example_clock id 0 2 "insertion_sort" world_second_bad
  = Throw invalid_argument.
Proof.
  assert (∀ l, 1 ≤ l < 2 →
     loaded world_second_bad l
       [mkSoldier "B" "x" "U2" 100; mkSoldier "A" "y" "U1" 200] ∧
     ∃ sd, sort_data id 0 "insertion_sort"
             [mkSoldier "B" "x" "U2" 100; mkSoldier "A" "y" "U1" 200]
           = Ret sd) as Hdata.
  { intros l Hl. assert (l = 1) as -> by lia. split.
    - exists ("B,x,U2,100" +:+ endl +:+ "A,y,U1,200" +:+ endl).
      split; by vm_compute.
    - exists [mkSoldier "A" "y" "U1" 200; mkSoldier "B" "x" "U2" 100].
      by vm_compute. }
  assert (files world_second_bad !! dataset_in 2
          = Some ("a,b,c,abc" +:+ endl)) as Hf by by vm_compute.
  assert (read_csv_loop (String.length ("a,b,c,abc" +:+ endl))
            ("a,b,c,abc" +:+ endl) [] = Throw invalid_argument) as Hr
    by by vm_compute.
  split_and!; [lia|lia|exact Hdata|exact Hf|exact Hr|].
  exact (get_time_exception example_clock id 0 2 "insertion_sort"
           world_second_bad _ 2 _ _ ltac:(lia) Hdata Hf Hr).
Defined.
